(** * Votelib: evaluators for voting systems, modelled in Rocq.

    The Python package itself (votelib/evaluate/*.py, votelib/component/*.py)
    is not among the repository's files: only its documentation and example
    notebooks are.  The evaluators below are therefore modelled from the
    specification of the package (sections 3, 4 and 7), keeping votelib's
    class and component names.

    Conventions.
    - A vote mapping for a distribution evaluator is a list of vote counts,
      one per option, in the mapping's key order; options are the positions.
    - A vote count is a [Z] (non-negative where it matters), seat counts are
      [nat], quotas and divisors are exact rationals [Q].

    The loading code of the example notebooks (docs/examples/*.ipynb), which
    turns the CSV rows into the vote mappings, is in the repository and is
    modelled from the notebooks' cells, and so is the composition of the
    Czech 2017 evaluator. *)

From Stdlib Require Import ZArith QArith Qround Qminmax Lia.
From stdpp Require Import base list list_monad strings gmap.

(* ------------------------------------------------------------------ *)
(** ** Auxiliary list operations *)

(** [incr_at i l] adds one seat to option [i]. *)
Fixpoint incr_at (i : nat) (l : list nat) : list nat :=
  match l, i with
  | [], _ => []
  | x :: l', O => S x :: l'
  | x :: l', S i' => x :: incr_at i' l'
  end.

Definition sum_nat (l : list nat) : nat := foldr Nat.add 0 l.

(* ------------------------------------------------------------------ *)
(** ** Divisor sequences (votelib.component.divisor)

    A divisor sequence maps the index of the next seat (counted from 1) to a
    positive rational. *)
Module Divisor.

(** Modelled from the spec: votelib/component/divisor.py is not in the
    sources; section 4.1 names the sequences (d'Hondt 1, 2, 3, ...;
    Sainte-Lague 1, 3, 5, ...), the others are their usual definitions. *)
Definition d_hondt (k : nat) : Q := inject_Z (Z.of_nat k).
Definition sainte_lague (k : nat) : Q := inject_Z (2 * Z.of_nat k - 1).
Definition imperiali (k : nat) : Q := inject_Z (Z.of_nat k + 1).
Definition macau (k : nat) : Q := inject_Z (2 ^ (Z.of_nat k - 1)).

End Divisor.

(* ------------------------------------------------------------------ *)
(** ** Highest averages (votelib.evaluate.proportional.HighestAverages)

    Section 4.2 of the spec: iteratively award the next seat to
    the option maximizing [votes / divisor(current_seats + 1)] until the seat
    count is exhausted; when the maximizing value is tied across options a
    Tie is emitted unless a deterministic tie-break is configured (here: the
    first listed option). *)
Module HighestAverages.

Inductive tie_policy := ReportTie | FirstListed.

Inductive ha_result :=
  | Decided (seats : list nat)
  | TieAt (tied : list nat) (awarded : list nat).

Definition quotient (divisor : nat -> Q) (v : Z) (s : nat) : Q :=
  inject_Z v / divisor (S s).

(** Quotient of option [i] given the current seats. *)
Definition cur_quotient (divisor : nat -> Q) (votes : list Z) (seats : list nat)
    (i : nat) : Q :=
  quotient divisor (nth i votes 0%Z) (nth i seats 0).

(** The options whose current quotient is maximal, in key order. *)
Definition maximizers (divisor : nat -> Q) (votes : list Z) (seats : list nat)
    : list nat :=
  let idx := seq 0 (length votes) in
  List.filter (fun i => forallb (fun j =>
            Qle_bool (cur_quotient divisor votes seats j)
                     (cur_quotient divisor votes seats i)) idx) idx.

(** Modelled from the spec: votelib/evaluate/proportional.py
    (HighestAverages) is not in the sources; one seat per step as in
    section 4.2, [fuel] being the seats still to award. *)
Fixpoint ha_loop (pol : tie_policy) (divisor : nat -> Q) (votes : list Z)
    (fuel : nat) (seats : list nat) : ha_result :=
  match fuel with
  | O => Decided seats
  | S f =>
      match maximizers divisor votes seats with
      | [] => Decided seats
      | [i] => ha_loop pol divisor votes f (incr_at i seats)
      | i :: rest =>
          match pol with
          | FirstListed => ha_loop pol divisor votes f (incr_at i seats)
          | ReportTie => TieAt (i :: rest) seats
          end
      end
  end.

(** Modelled from the spec: [HighestAverages.evaluate(votes, seats)] of the
    missing votelib/evaluate/proportional.py, all options starting at 0. *)
Definition evaluate (pol : tie_policy) (divisor : nat -> Q) (votes : list Z)
    (n : nat) : ha_result :=
  ha_loop pol divisor votes n (repeat 0 (length votes)).

End HighestAverages.

(* ------------------------------------------------------------------ *)
(** ** Quota functions (votelib.component.quota)

    A quota function maps the total of valid votes and the number of seats
    to a rational threshold. *)
Module Quota.

(** Modelled from the spec: votelib/component/quota.py is not in the
    sources; section 4.1 fixes the signature (votes, seats) to a positive
    rational, the formulas are the usual Hare, Droop, Hagenbach-Bischoff and
    Imperiali quotas. *)
Definition hare (votes : Z) (seats : nat) : Q :=
  inject_Z votes / inject_Z (Z.of_nat seats).
Definition droop (votes : Z) (seats : nat) : Q :=
  inject_Z (votes / (Z.of_nat seats + 1) + 1).
Definition hagenbach_bischoff (votes : Z) (seats : nat) : Q :=
  inject_Z votes / inject_Z (Z.of_nat seats + 1).
Definition imperiali (votes : Z) (seats : nat) : Q :=
  inject_Z votes / inject_Z (Z.of_nat seats + 2).

End Quota.

Definition sum_Z (l : list Z) : Z := foldr Z.add 0%Z l.

(** [incrZ_at i l] adds one seat to option [i] of a [Z]-valued result. *)
Fixpoint incrZ_at (i : nat) (l : list Z) : list Z :=
  match l, i with
  | [], _ => []
  | x :: l', O => (x + 1)%Z :: l'
  | x :: l', S i' => x :: incrZ_at i' l'
  end.

(* ------------------------------------------------------------------ *)
(** ** Largest remainder (votelib.evaluate.proportional.LargestRemainder)

    Section 4.2 of the spec: for each option compute [votes / quota] and
    award its floor; if fewer seats than requested were awarded, award the
    remaining seats one at a time to the options with the largest fractional
    remainder, breaking ties via the tie-break policy (section 4.6: without
    a policy the tie is reported as a Tie marker).  An overaward (the floors
    sum to more than the seats) is a configuration error, and so is a seat
    total that cannot reach the request (section 7: never silently
    ignored).

    A tie arises at the cut point only: when the options sharing the
    largest remainder are no more than the seats still open, all of them
    get a seat whatever the order; when they are more, the policy decides
    ([FirstListed]: the first in key order) or a Tie marker is returned with
    the tied options and the open seats.

    With [q = Qnum q / Qden q], [votes / q = votes * Qden q / Qnum q]; the
    floor is a [Z] division and the fractional remainder is represented by
    the scaled remainder [votes * Qden q mod Qnum q], which orders the
    options exactly like the fractional parts do. *)
Module LargestRemainder.
Import HighestAverages.

Definition scaled (q : Q) (v : Z) : Z := (v * Zpos (Qden q))%Z.
Definition quota_seats (q : Q) (v : Z) : Z := (scaled q v / Qnum q)%Z.
Definition remainder (q : Q) (v : Z) : Z := (scaled q v mod Qnum q)%Z.

(** The options of the pool with the largest remainder, in key order. *)
Definition top (pool : list (nat * Z)) : list nat :=
  map fst (List.filter (fun p => forallb (fun p' => (p'.2 <=? p.2)%Z) pool) pool).

(** The pool once option [i] has received its remainder seat. *)
Definition without (i : nat) (pool : list (nat * Z)) : list (nat * Z) :=
  List.filter (fun p => negb (p.1 =? i)) pool.

(** How the remainder seats went: all awarded, stopped at a tie (the
    options served so far, the tied options, the open seats), or stopped
    with seats left and no option left to serve. *)
Inductive award_outcome :=
  | Served (extra : list nat)
  | TieIn (extra : list nat) (tied : list nat) (open_seats : nat)
  | OutOfOptions (extra : list nat).

Definition served_first (i : nat) (o : award_outcome) : award_outcome :=
  match o with
  | Served extra => Served (i :: extra)
  | TieIn extra tied k => TieIn (i :: extra) tied k
  | OutOfOptions extra => OutOfOptions (i :: extra)
  end.

(** Award [fuel] seats one at a time to the options of the pool with the
    largest remainder; an option leaves the pool once served. *)
Fixpoint award_remainders (pol : tie_policy) (fuel : nat) (pool : list (nat * Z))
    : award_outcome :=
  match fuel with
  | O => Served []
  | S f =>
      match top pool with
      | [] => OutOfOptions []
      | i :: rest =>
          if match pol with
             | FirstListed => true
             | ReportTie => length rest <=? f
             end
          then served_first i (award_remainders pol f (without i pool))
          else TieIn [] (i :: rest) fuel
      end
  end.

Inductive lr_result :=
  | Ok (seats : list Z)
  | TieAt (tied : list nat) (open_seats : nat) (awarded : list Z)
  | Overaward
  | Underaward.

Definition add_seats (base : list Z) (extra : list nat) : list Z :=
  foldl (fun s i => incrZ_at i s) base extra.

(** Modelled from the spec: [LargestRemainder.evaluate(votes, seats)] of the
    missing votelib/evaluate/proportional.py, following section 4.2. *)
Definition evaluate (pol : tie_policy) (quota_function : Z -> nat -> Q)
    (votes : list Z) (n : nat) : lr_result :=
  let q := quota_function (sum_Z votes) n in
  let base := map (quota_seats q) votes in
  let awarded := sum_Z base in
  if (Z.of_nat n <? awarded)%Z then Overaward
  else
    let pool := zip (seq 0 (length votes)) (map (remainder q) votes) in
    match award_remainders pol (Z.to_nat (Z.of_nat n - awarded)) pool with
    | Served extra => Ok (add_seats base extra)
    | TieIn extra tied k => TieAt tied k (add_seats base extra)
    | OutOfOptions _ => Underaward
    end.

End LargestRemainder.

(* ------------------------------------------------------------------ *)
(** ** Transferable vote (votelib.evaluate.sequential.TransferableVoteSelector)

    Section 4.3 of the spec: the quota is computed once from
    the total of valid votes and the seat count; each round tallies the first
    continuing preference of every ballot; candidates meeting the quota are
    elected and their surplus transferred (Gregory: fractional weight, Hare:
    whole ballots taken in ballot order up to the surplus); otherwise the
    candidate with the fewest votes is eliminated, and an exact tie there
    yields a Tie.  The count ends when the seats are filled or when the
    remaining candidates are no more than the remaining seats (they are all
    elected). *)
Module STV.

Inductive transferer := Gregory | Hare.

Section WithCandidates.
Context {C : Type} `{EqDecision C}.

(** A ballot group: a ranking and its (possibly fractional) weight. *)
Definition ballot : Type := (list C * Q)%type.

Record state := mkState {
  active : list C;
  elected : list C;
  ballots : list ballot
}.

Inductive round_outcome :=
  | Continue (st : state)
  | Finished (chosen : list C)
  | TieOut (tied : list C).

Inductive stv_result :=
  | Selected (chosen : list C)
  | Tied (tied : list C).

(** The first continuing preference of a ranking. *)
Fixpoint current (act : list C) (r : list C) : option C :=
  match r with
  | [] => None
  | c :: r' => if bool_decide (c ∈ act) then Some c else current act r'
  end.

Definition tally (act : list C) (bs : list ballot) (c : C) : Q :=
  foldr (fun b acc => if bool_decide (current act b.1 = Some c)
                      then (b.2 + acc)%Q else acc) 0%Q bs.

(** Modelled from the spec: the Hare transfer of the missing
    votelib/evaluate/sequential.py; as section 4.3 prescribes, whole ballots
    of [c] are taken deterministically in ballot order until the surplus is
    exhausted; the rest stays with [c]. *)
Fixpoint hare_transfer (act : list C) (c : C) (surplus : Q) (bs : list ballot)
    : list ballot :=
  match bs with
  | [] => []
  | (r, w) :: bs' =>
      if bool_decide (current act r = Some c) then
        let take := Qmin w surplus in
        (r, take) :: hare_transfer act c (surplus - take)%Q bs'
      else (r, w) :: hare_transfer act c surplus bs'
  end.

(** Gregory transfer: every ballot of [c] continues at the fraction
    [surplus / total] of its weight. *)
Definition gregory_transfer (act : list C) (c : C) (surplus total : Q)
    (bs : list ballot) : list ballot :=
  map (fun b => if bool_decide (current act b.1 = Some c)
                then (b.1, (b.2 * (surplus / total))%Q) else b) bs.

Definition transfer (tr : transferer) (act : list C) (c : C)
    (surplus total : Q) (bs : list ballot) : list ballot :=
  match tr with
  | Gregory => gregory_transfer act c surplus total bs
  | Hare => hare_transfer act c surplus bs
  end.

(** Elect one candidate that reached the quota and transfer its surplus. *)
Definition elect_one (tr : transferer) (quota : Q) (st : state) (c : C) : state :=
  let t := tally (active st) (ballots st) c in
  mkState (List.filter (fun d => bool_decide (d ≠ c)) (active st))
          (elected st ++ [c])
          (transfer tr (active st) c (t - quota)%Q t (ballots st)).

Definition reached (quota : Q) (st : state) : list C :=
  List.filter (fun c => Qle_bool quota (tally (active st) (ballots st) c)) (active st).

Definition lowest (st : state) : list C :=
  let t := tally (active st) (ballots st) in
  List.filter (fun c => forallb (fun d => Qle_bool (t c) (t d)) (active st))
         (active st).

(** Modelled from the spec: one round of the count of section 4.3 (the
    votelib/evaluate/sequential.py it describes is not in the sources). *)
Definition round (tr : transferer) (quota : Q) (seats : nat) (st : state)
    : round_outcome :=
  let remaining := seats - length (elected st) in
  if remaining =? 0 then Finished (elected st)
  else if length (active st) <=? remaining then
    Finished (elected st ++ active st)
  else
    match reached quota st with
    | [] =>
        match lowest st with
        | [c] => Continue (mkState (List.filter (fun d => bool_decide (d ≠ c))
                                             (active st))
                                   (elected st) (ballots st))
        | tied => TieOut tied
        end
    | rs => Continue (foldl (elect_one tr quota) st rs)
    end.

Fixpoint count_rounds (tr : transferer) (quota : Q) (seats : nat) (fuel : nat)
    (st : state) : stv_result :=
  match fuel with
  | O => Selected (elected st)
  | S f =>
      match round tr quota seats st with
      | Continue st' => count_rounds tr quota seats f st'
      | Finished e => Selected e
      | TieOut t => Tied t
      end
  end.

Definition candidates (votes : list (list C * Z)) : list C :=
  remove_dups (concat (map fst votes)).

(** Modelled from the spec: [TransferableVoteSelector(quota_function,
    transferer).evaluate(votes, seats=1)] of the missing
    votelib/evaluate/sequential.py; the seat count defaults to 1, as the
    example notebook of the documentation states. *)
Definition evaluate (quota_function : Z -> nat -> Q) (tr : transferer)
    (votes : list (list C * Z)) (seats : option nat) : stv_result :=
  let n := default 1 seats in
  let quota := quota_function (sum_Z (map snd votes)) n in
  let cands := candidates votes in
  count_rounds tr quota n (S (length cands))
    (mkState cands [] (map (fun v => (v.1, inject_Z v.2)) votes)).

End WithCandidates.
End STV.

Definition irish_1990_votes : list (list string * Z) :=
  [ (["Mary Robinson"], 612265);
    (["Brian Lenihan"], 694484);
    (["Austin Currie"; "Brian Lenihan"], 36789);
    (["Austin Currie"; "Mary Robinson"], 205565);
    (["Austin Currie"], 25548) ]%Z.

(* ------------------------------------------------------------------ *)
(** ** Condorcet methods (votelib.evaluate.condorcet)

    Section 4.4 of the spec: a pairwise matrix counts, for
    every ordered pair (a, b), the ballots ranking a above b (unranked
    candidates are least preferred); the methods select from that matrix
    and return a Tie when their criterion does not single out one
    candidate. *)
Module Condorcet.

Section WithCandidates.
Context {C : Type} `{EqDecision C}.

Inductive selection :=
  | Winner (c : C)
  | TieAmong (cs : list C).

(** Single out the candidate of a list of maximal candidates. *)
Definition decide_winner (best : list C) : selection :=
  match best with
  | [c] => Winner c
  | cs => TieAmong cs
  end.

(** Does ranking [r] put [a] above [b]? *)
Fixpoint prefers (r : list C) (a b : C) : bool :=
  match r with
  | [] => false
  | x :: r' =>
      if bool_decide (x = b) then false
      else if bool_decide (x = a) then true
      else prefers r' a b
  end.

(** Modelled from the spec: the pairwise matrix of section 4.4 (the
    votelib/evaluate/condorcet.py it describes is not in the sources). *)
Definition pairwise (votes : list (list C * Z)) (a b : C) : Z :=
  foldr (fun v acc => if prefers v.1 a b then (v.2 + acc)%Z else acc) 0%Z votes.

Section Matrix.
Variable m : C -> C -> Z.
Variable cands : list C.

Definition beats (a b : C) : bool := (m b a <? m a b)%Z.

Definition condorcet_winner (c : C) : Prop :=
  c ∈ cands /\ forall x, x ∈ cands -> x <> c -> beats c x = true.

(** Candidates whose score is not exceeded by any other candidate. *)
Definition maximal_by (score : C -> Z) : list C :=
  List.filter (fun y => forallb (fun x => (score x <=? score y)%Z) cands) cands.

(** Copeland: wins minus losses. *)
Definition copeland_score (c : C) : Z :=
  (Z.of_nat (length (List.filter (fun x => beats c x) cands))
   - Z.of_nat (length (List.filter (fun x => beats x c) cands)))%Z.

(** Modelled from the spec: Copeland of section 4.4. *)
Definition copeland : selection := decide_winner (maximal_by copeland_score).

(** Minimax: the worst pairwise defeat margin (0 when undefeated) is
    minimized. *)
Definition worst_defeat (c : C) : Z :=
  foldr (fun x acc => Z.max (m x c - m c x) acc) 0%Z
        (List.filter (fun x => bool_decide (x ≠ c)) cands).

(** Modelled from the spec: Minimax of section 4.4. *)
Definition minimax : selection :=
  decide_winner (maximal_by (fun c => - worst_defeat c)%Z).

(** Schulze: strongest (widest) paths by all-pairs relaxation. *)
Definition link (a b : C) : Z := if beats a b then m a b else 0%Z.

Definition relax (p : C -> C -> Z) (k : C) : C -> C -> Z :=
  fun i j =>
    if bool_decide (i = j \/ i = k \/ j = k) then p i j
    else Z.max (p i j) (Z.min (p i k) (p k j)).

Definition strongest_paths : C -> C -> Z := foldl relax link cands.

(** Modelled from the spec: Schulze of section 4.4. *)
Definition schulze : selection :=
  let p := strongest_paths in
  decide_winner (List.filter (fun y => forallb (fun x => (p x y <=? p y x)%Z) cands)
                        cands).

(** Ranked pairs: victories by margin (descending, stable), each locked
    unless it closes a cycle; the winners are the unbeaten candidates of the
    locked graph. *)
Definition margin (e : C * C) : Z := (m e.1 e.2 - m e.2 e.1)%Z.

Definition victories : list (C * C) :=
  List.filter (fun e => beats e.1 e.2) (list_prod cands cands).

Fixpoint insert_by_margin (e : C * C) (l : list (C * C)) : list (C * C) :=
  match l with
  | [] => [e]
  | e' :: l' => if (margin e' <? margin e)%Z then e :: l
                else e' :: insert_by_margin e l'
  end.

Definition sorted_victories : list (C * C) :=
  foldr insert_by_margin [] (rev victories).

Fixpoint reaches (g : list (C * C)) (fuel : nat) (a b : C) : bool :=
  bool_decide (a = b) ||
  match fuel with
  | O => false
  | S f => existsb (fun e => bool_decide (e.1 = a) && reaches g f e.2 b) g
  end.

Definition lock (g : list (C * C)) (e : C * C) : list (C * C) :=
  if reaches g (length cands) e.2 e.1 then g else g ++ [e].

Definition locked : list (C * C) := foldl lock [] sorted_victories.

(** Modelled from the spec: Ranked Pairs of section 4.4. *)
Definition ranked_pairs : selection :=
  decide_winner (List.filter (fun y => negb (existsb (fun e => bool_decide (e.2 = y))
                                                locked)) cands).

(** Kemeny-Young: the rankings of all candidates maximizing the agreement
    with the pairwise matrix; the winners head such a ranking. *)
Fixpoint kemeny_score (r : list C) : Z :=
  match r with
  | [] => 0%Z
  | a :: r' => (foldr (fun b acc => m a b + acc) 0 r' + kemeny_score r')%Z
  end.

Definition optimal_rankings : list (list C) :=
  let perms := permutations cands in
  List.filter (fun r => forallb (fun r' => (kemeny_score r' <=? kemeny_score r)%Z)
                           perms) perms.

(** Modelled from the spec: Kemeny-Young of section 4.4. *)
Definition kemeny_young : selection :=
  decide_winner (List.filter (fun y => existsb (fun r => bool_decide (head r = Some y))
                                          optimal_rankings) cands).

End Matrix.
End WithCandidates.
End Condorcet.

Definition cond_votes : list (list nat * Z) :=
  [([0; 1; 2], 6%Z); ([1; 2; 0], 3%Z); ([2; 0; 1], 2%Z)].

(* ------------------------------------------------------------------ *)
(** ** Biproportional apportionment
       (votelib.evaluate.proportional.BiproportionalEvaluator)

    Section 4.2 of the spec: divisors per row (district) and
    per column (party) are adjusted alternately, with downward (d'Hondt)
    rounding, until the rounded matrix [floor(v_ij / (r_i * c_j))] meets both
    marginal totals; after a fixed number of iterations without convergence
    a voting-system error is reported.  A row step picks, for each row, the
    divisor under which that row receives exactly its total when possible:
    with target [R] it is the [R]-th largest of the quotients
    [v_ij / c_j / k] ([k = 1..R]); with target 0 it exceeds every entry. *)
Module Biproportional.

Fixpoint insert_desc (x : Q) (l : list Q) : list Q :=
  match l with
  | [] => [x]
  | y :: l' => if Qle_bool y x then x :: l else y :: insert_desc x l'
  end.

Definition sort_desc (l : list Q) : list Q := foldr insert_desc [] l.

Definition Qmax_list (l : list Q) : Q := foldr Qmax 0%Q l.

(** Divisor giving [target] seats to entries [ws] under downward rounding. *)
Definition line_divisor (ws : list Q) (target : nat) : Q :=
  match target with
  | O => (Qmax_list ws + 1)%Q
  | S t =>
      let qs := concat (map (fun w => map (fun k => (w / inject_Z (Z.of_nat k))%Q)
                                           (seq 1 target)) ws) in
      match nth_error (sort_desc qs) t with
      | Some d => if Qle_bool d 0 then 1%Q else d
      | None => 1%Q
      end
  end.

Definition transpose_with (ncols : nat) (m : list (list Z)) : list (list Z) :=
  map (fun j => map (fun row => nth j row 0%Z) m) (seq 0 ncols).

Definition row_sums (m : list (list Z)) : list Z := map sum_Z m.

Definition col_sums (ncols : nat) (m : list (list Z)) : list Z :=
  row_sums (transpose_with ncols m).

Record divisors := mkDivisors { row_div : list Q; col_div : list Q }.

Definition rounded (votes : list (list Z)) (d : divisors) : list (list Z) :=
  imap (fun i row =>
          imap (fun j v => Qfloor (inject_Z v / (nth i (row_div d) 1 * nth j (col_div d) 1))%Q)
               row) votes.

Definition row_step (votes : list (list Z)) (rtot : list nat) (d : divisors)
    : divisors :=
  mkDivisors
    (imap (fun i row =>
             line_divisor (imap (fun j v => inject_Z v / nth j (col_div d) 1%Q)%Q row)
                          (nth i rtot 0)) votes)
    (col_div d).

Definition col_step (votes : list (list Z)) (ctot : list nat) (d : divisors)
    : divisors :=
  mkDivisors
    (row_div d)
    (imap (fun j col =>
             line_divisor (imap (fun i v => inject_Z v / nth i (row_div d) 1%Q)%Q col)
                          (nth j ctot 0))
          (transpose_with (length ctot) votes)).

Definition adjust (votes : list (list Z)) (rtot ctot : list nat) (d : divisors)
    : divisors :=
  col_step votes ctot (row_step votes rtot d).

Definition marginals_ok (rtot ctot : list nat) (m : list (list Z)) : bool :=
  bool_decide (row_sums m = map Z.of_nat rtot) &&
  bool_decide (col_sums (length ctot) m = map Z.of_nat ctot).

Inductive bp_result :=
  | Converged (seats : list (list Z))
  | NotConverged.

(** Modelled from the spec: the alternating adjustment of section 4.2 (the
    BiproportionalEvaluator of votelib/evaluate/proportional.py is not in the
    sources), at most [fuel] iterations. *)
Fixpoint bp_loop (votes : list (list Z)) (rtot ctot : list nat) (fuel : nat)
    (d : divisors) : bp_result :=
  match fuel with
  | O => NotConverged
  | S f =>
      let d' := adjust votes rtot ctot d in
      let m := rounded votes d' in
      if marginals_ok rtot ctot m then Converged m
      else bp_loop votes rtot ctot f d'
  end.

Definition max_iterations : nat := 100.

(** Modelled from the spec: [BiproportionalEvaluator.evaluate], starting from
    unit divisors with the fixed iteration cap. *)
Definition evaluate (votes : list (list Z)) (rtot ctot : list nat) : bp_result :=
  bp_loop votes rtot ctot max_iterations
    (mkDivisors (repeat 1%Q (length rtot)) (repeat 1%Q (length ctot))).

End Biproportional.

Definition bp_votes : list (list Z) := [[60; 40]; [20; 80]]%Z.

(* ------------------------------------------------------------------ *)
(** ** Composite evaluators (votelib.evaluate.core) *)
Module Composite.




End Composite.

(* ------------------------------------------------------------------ *)
(** ** Per-constituency fan-out and the Czech 2017 evaluator

    The evaluator of the Czech 2017 notebook (cz_psp_2017.ipynb, cells 2
    and 3):
<<
eliminator = RelativeThreshold(Decimal('.05'), accept_equal=True)
regional_evaluator = HighestAverages('d_hondt')
apportioner = LargestRemainder('hare')
combined_evaluator = ByConstituency(regional_evaluator, apportioner,
                                    preselector=eliminator)
evaluator = FixedSeatCount(PostConverted(combined_evaluator, VoteTotals()), 200)
>>
    The votes are a table with one row per constituency (region) and one
    column per party, every region listing every party (the loading cell
    builds [votes[regname][party]] for all parties of the CSV file). *)

(** Column sums of a table whose rows have [m] columns: votelib's
    [VoteTotals] conversion, summing each party over the constituencies
    (missing votelib/convert.py, section 4.5 of the spec). *)
Fixpoint column_totals {A : Type} (add : A -> A -> A) (zero : A) (m : nat)
    (rows : list (list A)) : list A :=
  match rows with
  | [] => repeat zero m
  | r :: rs => zip_with add r (column_totals add zero m rs)
  end.

(** The number of parties: the width of the first row. *)
Definition width {A : Type} (rows : list (list A)) : nat :=
  match rows with
  | [] => 0
  | r :: _ => length r
  end.

Module Threshold.

(** Modelled from the spec: [RelativeThreshold(threshold, accept_equal)]
    of the missing votelib/evaluate/threshold.py (section 4.5,
    conditioning): the parties whose share [votes / total] of the total
    reaches the threshold ([>=] with [accept_equal], [>] without), as a
    mask over the parties; [None] when the total is zero, where the share
    divides by zero. *)
Definition relative_threshold (threshold : Q) (accept_equal : bool)
    (votes : list Z) : option (list bool) :=
  let total := sum_Z votes in
  if (total =? 0)%Z then None else
  Some (map (fun v =>
    let share := (inject_Z v / inject_Z total)%Q in
    if accept_equal then Qle_bool threshold share
    else negb (Qle_bool share threshold)) votes).

End Threshold.

Module ByConstituency.
Import HighestAverages.

(** What the fan-out returns: the seats of each constituency (one row per
    constituency, one column per party), or the first undecided step
    passed on unchanged (section 7 of the spec): the apportioner's tie or
    configuration error, a tie in a constituency, or a zero vote total. *)
Inductive fanout_result :=
  | Distributed (seats : list (list nat))
  | ApportionerFailed (r : LargestRemainder.lr_result)
  | ConstituencyTie (constituency : nat) (tied : list nat) (awarded : list nat)
  | ZeroTotal.

(** The votes of the preselected parties. *)
Definition select {A : Type} (mask : list bool) (row : list A) : list A :=
  map snd (List.filter fst (zip mask row)).

(** Seats of the preselected parties put back in place, the other parties
    getting none. *)
Fixpoint scatter (mask : list bool) (seats : list nat) : list nat :=
  match mask with
  | [] => []
  | true :: ms =>
      match seats with
      | [] => 0 :: scatter ms []
      | s :: ss => s :: scatter ms ss
      end
  | false :: ms => 0 :: scatter ms seats
  end.

(** The evaluator of each constituency on the preselected parties with the
    constituency's apportioned seats, in constituency order. *)
Fixpoint eval_constituencies (pol : tie_policy) (divisor : nat -> Q)
    (mask : list bool) (c : nat) (regions : list (list Z * Z)) : fanout_result :=
  match regions with
  | [] => Distributed []
  | (row, s) :: rest =>
      match HighestAverages.evaluate pol divisor (select mask row) (Z.to_nat s) with
      | TieAt tied awarded => ConstituencyTie c tied awarded
      | Decided seats =>
          match eval_constituencies pol divisor mask (S c) rest with
          | Distributed rs => Distributed (scatter mask seats :: rs)
          | r => r
          end
      end
  end.

(** Modelled from the spec: [ByConstituency(evaluator, apportioner,
    preselector)] of the missing votelib/evaluate/core.py (section 4.5,
    per-constituency fan-out): the apportioner distributes the [n] seats
    over the constituencies by their vote totals, the preselector selects
    parties on the national totals, then the evaluator runs in each
    constituency. *)
Definition evaluate (pol : tie_policy) (divisor : nat -> Q)
    (quota_function : Z -> nat -> Q) (threshold : Q) (accept_equal : bool)
    (votes : list (list Z)) (n : nat) : fanout_result :=
  match LargestRemainder.evaluate pol quota_function (map sum_Z votes) n with
  | LargestRemainder.Ok region_seats =>
      match Threshold.relative_threshold threshold accept_equal
              (column_totals Z.add 0%Z (width votes) votes) with
      | None => ZeroTotal
      | Some mask => eval_constituencies pol divisor mask 0 (zip votes region_seats)
      end
  | r => ApportionerFailed r
  end.




End ByConstituency.


(* ------------------------------------------------------------------ *)
(** ** Loading code of the example notebooks *)

(** Exceptions the notebook cells can raise. *)
Inductive py_error := IndexError | KeyError | ValueError.

(** Python's [dict.setdefault(k, v)]: the value stored at [k], inserting
    [v] first when [k] is absent. *)
Definition setdefault {V : Type} (m : gmap string V) (k : string) (v : V)
    : V * gmap string V :=
  match m !! k with
  | Some x => (x, m)
  | None => (v, <[k := v]> m)
  end.

Module RegionalVotes.

Section WithInt.
(** Python's [int] on a string cell: [None] is a [ValueError]. *)
Variable int : string -> option Z.

(** [for regname, n_votes in ...: votes[regname][party] = int(n_votes)]:
    the right-hand side is evaluated before the subscripts. *)
Fixpoint store_cells (party : string) (cells : list (string * string))
    (votes : gmap string (gmap string Z)) : py_error + gmap string (gmap string Z) :=
  match cells with
  | [] => inr votes
  | (regname, n_votes) :: rest =>
      match int n_votes with
      | None => inl ValueError
      | Some n =>
          match votes !! regname with
          | None => inl KeyError
          | Some d => store_cells party rest (<[regname := <[party := n]> d]> votes)
          end
      end
  end.

(** [for row in rows[1:]: party = row[0]; for ... in zip(region_names, row[1:])]. *)
Fixpoint store_rows (region_names : list string) (rows : list (list string))
    (votes : gmap string (gmap string Z)) : py_error + gmap string (gmap string Z) :=
  match rows with
  | [] => inr votes
  | [] :: _ => inl IndexError
  | (party :: cells) :: rest =>
      match store_cells party (zip region_names cells) votes with
      | inl e => inl e
      | inr votes' => store_rows region_names rest votes'
      end
  end.

(** [votes = {region: {} for region in region_names}]. *)
Definition init_votes (region_names : list string) : gmap string (gmap string Z) :=
  fold_left (fun votes region => <[region := ∅]> votes) region_names ∅.

(** The loading cell of docs/examples/cz_psp_2017.ipynb (and, verbatim,
    cz_psp_2021.ipynb), from the list of CSV rows on. *)
Definition load_votes (rows : list (list string)) : py_error + gmap string (gmap string Z) :=
  match rows with
  | [] => inl IndexError
  | header :: data =>
      let region_names := tail header in
      store_rows region_names data (init_votes region_names)
  end.

End WithInt.
End RegionalVotes.

Module PartyLists.

(** A [votelib.candidate.Person]: its name and the party it stands for.  A
    [PoliticalParty(party)] is represented by its name [party]. *)
Record person := Person { name : string; candidacy_for : string }.

Section WithInt.
Variable int : string -> option Z.

(** The loop of docs/examples/nmnmet_cc_2018.ipynb over the CSV rows
    [party;name;n_pers_votes]: unpacking a row of another length raises
    [ValueError].  The [votes[person]] entries are keyed by [Person]
    objects, whose equality votelib.candidate defines; only the [int]
    conversion of the count is kept from that line. *)
Fixpoint load_rows (rows : list (list string)) (party_objs : gmap string string)
    (party_lists : gmap string (list person)) : py_error + (gmap string string * gmap string (list person)) :=
  match rows with
  | [] => inr (party_objs, party_lists)
  | [party; name; n_pers_votes] :: rest =>
      let '(party_obj, party_objs') := setdefault party_objs party party in
      let person := Person name party_obj in
      match int n_pers_votes with
      | None => inl ValueError
      | Some _ =>
          let '(lst, party_lists') := setdefault party_lists party_obj [] in
          load_rows rest party_objs' (<[party_obj := lst ++ [person]]> party_lists')
      end
  | _ :: _ => inl ValueError
  end.

Definition load_party_lists (rows : list (list string))
    : py_error + (gmap string string * gmap string (list person)) :=
  load_rows rows ∅ ∅.

End WithInt.

(** The person a CSV row [party;name;n_pers_votes] appends to the list of
    party [p], if it stands for [p]. *)
Definition row_person (p : string) (row : list string) : option person :=
  match row with
  | [q; nm; _] => if decide (q = p) then Some (Person nm p) else None
  | _ => None
  end.

End PartyLists.

(** Python's [int] on a non-empty string of ASCII decimal digits; any other
    string is refused.  Enough for the CSV cells of the examples below. *)
Definition digit_value (a : Ascii.ascii) : option Z :=
  let n := Ascii.nat_of_ascii a in
  if (48 <=? n) && (n <=? 57) then Some (Z.of_nat (n - 48)) else None.

Fixpoint int_of_digits_acc (s : string) (acc : Z) : option Z :=
  match s with
  | EmptyString => Some acc
  | String a s' =>
      match digit_value a with
      | None => None
      | Some d => int_of_digits_acc s' (10 * acc + d)
      end
  end.

Definition int_of_digits (s : string) : option Z :=
  match s with
  | EmptyString => None
  | _ => int_of_digits_acc s 0
  end.

(** A region-by-party vote table as the Czech notebooks read it: the second
    ANO row overrides the first, the ODS row stops before the Brno column,
    and the cell beyond the header is never converted. *)
Definition csv_regions : list (list string) :=
  [["strana"; "Praha"; "Brno"];
   ["ANO"; "10"; "20"];
   ["ODS"; "5"];
   ["ANO"; "7"; "8"; "x"]]%string.

Definition csv_regions_votes : gmap string (gmap string Z) :=
  match RegionalVotes.load_votes int_of_digits csv_regions with
  | inr v => v
  | inl _ => ∅
  end.

(** A candidate list file as the Nove Mesto notebook reads it. *)
Definition csv_candidates : list (list string) :=
  [["VPM"; "Novak"; "12"];
   ["ODS"; "Dvorak"; "3"];
   ["VPM"; "Svoboda"; "7"]]%string.

Definition csv_candidates_loaded : gmap string string * gmap string (list PartyLists.person) :=
  match PartyLists.load_party_lists int_of_digits csv_candidates with
  | inr s => s
  | inl _ => (∅, ∅)
  end.

(* ================================================================== *)
(** * Properties *)

Module ListFacts.

Lemma length_incr_at i l : length (incr_at i l) = length l.
Proof. revert i; induction l as [|x l IH]; intros [|i]; simpl; auto. Qed.

Lemma nth_incr_at_eq i l : i < length l -> nth i (incr_at i l) 0 = S (nth i l 0).
Proof.
  revert i; induction l as [|x l IH]; intros [|i] H; simpl in *; try lia; auto.
  apply IH; lia.
Qed.

Lemma nth_incr_at_ne i j l : i <> j -> nth j (incr_at i l) 0 = nth j l 0.
Proof.
  revert i j; induction l as [|x l IH]; intros [|i] [|j] H; simpl; auto; try lia.
Qed.

Lemma incr_at_overflow i l : length l <= i -> incr_at i l = l.
Proof.
  revert i; induction l as [|x l IH]; intros [|i] H; simpl in *; try lia; auto.
  rewrite IH by lia. auto.
Qed.

Lemma sum_incr_at i l : i < length l -> sum_nat (incr_at i l) = S (sum_nat l).
Proof.
  revert i; induction l as [|x l IH]; intros [|i] H; simpl in *; try lia.
  unfold sum_nat in *; simpl. rewrite IH; lia.
Qed.

Lemma sum_repeat_0 n : sum_nat (repeat 0 n) = 0.
Proof. induction n; simpl; auto. Qed.

Lemma nth_repeat_0 n i : nth i (repeat 0 n) 0 = 0.
Proof. revert i; induction n; intros [|i]; simpl; auto. Qed.

(** If [s] does not sum to more than [s'] and [s] is larger at [a], then
    [s'] is larger at some other position. *)
Lemma sum_lt_nth_lt (s s' : list nat) :
  sum_nat s < sum_nat s' -> exists j, nth j s 0 < nth j s' 0.
Proof.
  revert s'; induction s as [|x s IH]; intros s' H.
  - induction s' as [|y s' IH']; unfold sum_nat in *; simpl in *; [lia|].
    destruct y; [|exists 0; simpl; lia].
    destruct IH' as [j Hj]; [lia|]. exists (S j). simpl. destruct j; simpl in *; lia.
  - destruct s' as [|y s']; unfold sum_nat in *; simpl in *; [lia|].
    destruct (decide (x < y)); [exists 0; simpl; lia|].
    destruct (IH s') as [j Hj]; [unfold sum_nat; lia|]. exists (S j); simpl; lia.
Qed.

Lemma nth_le_sum (s : list nat) a : nth a s 0 <= sum_nat s.
Proof.
  revert a; induction s as [|x s IH]; intros [|a]; unfold sum_nat in *; simpl; try lia.
  specialize (IH a). lia.
Qed.

Lemma sum_le_other_gt (s s' : list nat) (a : nat) :
  sum_nat s <= sum_nat s' -> nth a s' 0 < nth a s 0 ->
  exists j, j <> a /\ nth j s 0 < nth j s' 0.
Proof.
  revert s' a; induction s as [|x s IH]; intros s' a Hs Ha.
  - destruct a; simpl in Ha; lia.
  - destruct s' as [|y s'].
    + pose proof (nth_le_sum (x :: s) a). unfold sum_nat in *; simpl in *. lia.
    + unfold sum_nat in Hs; simpl in Hs. destruct a as [|a]; simpl in Ha.
      * destruct (sum_lt_nth_lt s s') as [j Hj]; [unfold sum_nat; lia|].
        exists (S j); split; [lia|exact Hj].
      * destruct (decide (x < y)); [exists 0; simpl; split; [lia|lia]|].
        destruct (IH s' a) as [j [Hj1 Hj2]]; [unfold sum_nat; lia|exact Ha|].
        exists (S j); simpl; split; [lia|exact Hj2].
Qed.

Lemma nth_pos_lt_length (l : list nat) j : 0 < nth j l 0 -> j < length l.
Proof.
  intros H. destruct (decide (j < length l)); auto.
  rewrite nth_overflow in H; lia.
Qed.

End ListFacts.

Module QFacts.

Lemma Qinv_le_anti (a b : Q) : (0 < a -> a <= b -> / b <= / a)%Q.
Proof.
  intros Ha Hab. apply Qle_lteq in Hab as [Hlt|Heq].
  - apply Qlt_le_weak.
    assert (0 < b)%Q as Hb by (apply (Qlt_trans _ a); auto).
    apply (proj1 (Qinv_lt_contravar a b Ha Hb)). exact Hlt.
  - rewrite Heq. apply Qle_refl.
Qed.

Lemma inject_Z_nonneg (v : Z) : (0 <= v)%Z -> (0 <= inject_Z v)%Q.
Proof. intros H. unfold Qle; simpl. lia. Qed.

End QFacts.

Module HAFacts.
Import HighestAverages ListFacts QFacts.

Section Facts.
Variable divisor : nat -> Q.

Local Abbreviation q := (cur_quotient divisor).

Lemma in_maximizers (votes : list Z) (seats : list nat) i :
  In i (maximizers divisor votes seats) <->
  i < length votes /\
  forall j, j < length votes -> (q votes seats j <= q votes seats i)%Q.
Proof.
  unfold maximizers. rewrite filter_In, in_seq, forallb_forall.
  split.
  - intros [Hi Hall]. split; [lia|]. intros j Hj.
    apply Qle_bool_iff, Hall, in_seq. lia.
  - intros [Hi Hall]. split; [lia|]. intros j Hj.
    apply in_seq in Hj. apply Qle_bool_iff, Hall. lia.
Qed.

Lemma exists_max (f : nat -> Q) n :
  0 < n -> exists i, i < n /\ forall j, j < n -> (f j <= f i)%Q.
Proof.
  induction n as [|n IH]; intros Hn; [lia|].
  destruct n as [|n].
  - exists 0. split; [lia|]. intros j Hj. assert (j = 0) by lia. subst. apply Qle_refl.
  - destruct IH as [i [Hi Hmax]]; [lia|].
    destruct (Qlt_le_dec (f i) (f (S n))) as [Hlt|Hle].
    + exists (S n). split; [lia|]. intros j Hj.
      destruct (decide (j = S n)); [subst; apply Qle_refl|].
      apply (Qle_trans _ (f i)); [apply Hmax; lia|apply Qlt_le_weak; auto].
    + exists i. split; [lia|]. intros j Hj.
      destruct (decide (j = S n)); [subst; auto|]. apply Hmax; lia.
Qed.

Lemma maximizers_nonempty (votes : list Z) (seats : list nat) :
  0 < length votes -> maximizers divisor votes seats <> [].
Proof.
  intros Hn Hnil.
  destruct (exists_max (q votes seats) (length votes) Hn) as [i [Hi Hmax]].
  assert (In i (maximizers divisor votes seats)) as Hin.
  { apply in_maximizers. auto. }
  rewrite Hnil in Hin. inversion Hin.
Qed.

Lemma filter_seq_head (P : nat -> bool) a b i rest :
  List.filter P (seq a b) = i :: rest ->
  forall j, a <= j < i -> P j = false.
Proof.
  revert a; induction b as [|b IH]; intros a H j Hj; simpl in H; [discriminate|].
  destruct (P a) eqn:Ha.
  - injection H as <- _. lia.
  - destruct (decide (j = a)); [subst; auto|].
    apply (IH (S a)); auto. lia.
Qed.

(** The option served first among the maximizers beats every other option,
    or ties with it and is listed before it. *)
Definition first_max (votes : list Z) (seats : list nat) (w : nat) : Prop :=
  w < length votes /\
  forall j, j < length votes -> j <> w ->
    (q votes seats j < q votes seats w)%Q \/
    ((q votes seats j == q votes seats w)%Q /\ w < j).

Lemma maximizers_cons_first (votes : list Z) (seats : list nat) w rest :
  maximizers divisor votes seats = w :: rest -> first_max votes seats w.
Proof.
  intros H.
  assert (In w (maximizers divisor votes seats)) as Hin by (rewrite H; left; auto).
  apply in_maximizers in Hin as [Hw Hmax]. split; auto.
  intros j Hj Hne.
  destruct (decide (j < w)) as [Hlt|Hge].
  - left. unfold maximizers in H.
    pose proof (filter_seq_head _ 0 (length votes) w rest H j ltac:(lia)) as Hf.
    apply not_true_iff_false in Hf. rewrite forallb_forall in Hf.
    destruct (exists_max (q votes seats) (length votes) ltac:(lia))
      as [k [Hk Hkmax]].
    destruct (Qlt_le_dec (q votes seats j) (q votes seats k)) as [Hjk|Hkj].
    + apply (Qlt_le_trans _ (q votes seats k)); auto.
    + exfalso. apply Hf. intros x Hx. apply in_seq in Hx. apply Qle_bool_iff.
      apply (Qle_trans _ (q votes seats k)); auto. apply Hkmax. lia.
  - specialize (Hmax j Hj). apply Qle_lteq in Hmax as [Hlt|Heq]; auto.
    right. split; auto. lia.
Qed.

(** How far the loop gets: the seats grow by one per served seat. *)
Lemma ha_loop_sum pol (votes : list Z) fuel (seats s : list nat) :
  length seats = length votes ->
  ha_loop pol divisor votes fuel seats = Decided s ->
  length s = length votes /\
  (0 < length votes -> sum_nat s = sum_nat seats + fuel).
Proof.
  revert seats; induction fuel as [|f IH]; intros seats Hlen H; simpl in H.
  - injection H as <-. split; auto; lia.
  - destruct (maximizers divisor votes seats) as [|w rest] eqn:Hm.
    + injection H as <-. split; auto. intros Hn.
      exfalso. eapply maximizers_nonempty; eauto.
    + assert (w < length votes) as Hw by (eapply maximizers_cons_first; eauto).
      assert (length (incr_at w seats) = length votes) as Hlen'
        by (rewrite length_incr_at; auto).
      assert (ha_loop pol divisor votes f (incr_at w seats) = Decided s ->
              length s = length votes /\
              (0 < length votes -> sum_nat s = sum_nat seats + S f)) as Hstep.
      { intros Hs'. destruct (IH _ Hlen' Hs') as [Hl Hsum]. split; auto.
        intros Hn. rewrite Hsum, sum_incr_at by lia. lia. }
      destruct rest as [|w' rest'].
      * apply Hstep; auto.
      * destruct pol; [discriminate|]. apply Hstep; auto.
Qed.

End Facts.
End HAFacts.

(** Vote monotonicity of highest averages for a divisor sequence of
    positive, non-decreasing divisors. *)
Module HAMonotone.
Import HighestAverages ListFacts QFacts HAFacts.

Section Mono.
Variable divisor : nat -> Q.
Hypothesis div_pos : forall k, (0 < divisor (S k))%Q.
Hypothesis div_mono : forall k, (divisor (S k) <= divisor (S (S k)))%Q.

Lemma divisor_mono s t : s <= t -> (divisor (S s) <= divisor (S t))%Q.
Proof. induction 1; [apply Qle_refl|eapply Qle_trans; eauto]. Qed.

Lemma quotient_anti v s t :
  (0 <= v)%Z -> s <= t -> (quotient divisor v t <= quotient divisor v s)%Q.
Proof.
  intros Hv Hst. unfold quotient, Qdiv.
  rewrite !(Qmult_comm (inject_Z v)).
  apply Qmult_le_compat_r; [|apply inject_Z_nonneg; auto].
  apply Qinv_le_anti; [apply div_pos|apply divisor_mono; lia].
Qed.

Lemma quotient_votes_mono v v' s :
  (v <= v')%Z -> (quotient divisor v s <= quotient divisor v' s)%Q.
Proof.
  intros H. unfold quotient, Qdiv. apply Qmult_le_compat_r.
  - rewrite <- Zle_Qle. exact H.
  - apply Qinv_le_0_compat, Qlt_le_weak, div_pos.
Qed.

(** [(x, i)] ranks at least as high as [(y, j)]: a larger quotient, or the
    same quotient and an earlier listing. *)
Definition key_ge (x : Q) (i : nat) (y : Q) (j : nat) : Prop :=
  (y < x)%Q \/ ((x == y)%Q /\ i < j).

(** Every seat awarded ranks at least as high as every option's next
    quotient. *)
Definition ha_inv (votes : list Z) (seats : list nat) : Prop :=
  forall i j, i < length votes -> j < length votes -> i <> j ->
    1 <= nth i seats 0 ->
    key_ge (quotient divisor (nth i votes 0%Z) (nth i seats 0 - 1)) i
           (quotient divisor (nth j votes 0%Z) (nth j seats 0)) j.

Lemma nonneg_nth (votes : list Z) k :
  Forall (fun v => (0 <= v)%Z) votes -> (0 <= nth k votes 0%Z)%Z.
Proof.
  intros H. destruct (decide (k < length votes)).
  - rewrite Forall_forall in H. apply H, list_elem_of_In, nth_In. auto.
  - rewrite nth_overflow by lia. lia.
Qed.

Lemma ha_inv_init (votes : list Z) : ha_inv votes (repeat 0 (length votes)).
Proof. intros i j _ _ _ H. rewrite nth_repeat_0 in H. lia. Qed.

Lemma ha_inv_step (votes : list Z) (seats : list nat) w :
  Forall (fun v => (0 <= v)%Z) votes ->
  ha_inv votes seats -> first_max divisor votes seats w ->
  ha_inv votes (incr_at w seats).
Proof.
  intros Hnn Hinv [Hw Hfirst] i j Hi Hj Hij H1.
  assert (length seats = length votes \/ True) as _ by auto.
  destruct (decide (i = w)) as [->|Hiw].
  - rewrite (nth_incr_at_ne w j) by auto.
    destruct (decide (w < length seats)) as [Hws|Hws].
    + rewrite nth_incr_at_eq by auto.
      replace (S (nth w seats 0) - 1) with (nth w seats 0) by lia.
      destruct (Hfirst j Hj (not_eq_sym Hij)) as [Hlt|[Heq Hlt]];
        unfold cur_quotient in *; [left; exact Hlt|right; split; auto].
      apply Qeq_sym. exact Heq.
    + rewrite nth_overflow in H1 by (rewrite length_incr_at; lia). lia.
  - rewrite (nth_incr_at_ne w i) in * by auto.
    destruct (decide (j = w)) as [->|Hjw].
    + destruct (decide (w < length seats)) as [Hws|Hws].
      * rewrite nth_incr_at_eq by auto.
        specialize (Hinv i w Hi Hw Hij H1).
        set (X := quotient divisor (nth i votes 0%Z) (nth i seats 0 - 1)) in *.
        assert (Qle (quotient divisor (nth w votes 0%Z) (S (nth w seats 0)))
                    (quotient divisor (nth w votes 0%Z) (nth w seats 0))) as Hdec
          by (apply quotient_anti; [apply nonneg_nth; auto|lia]).
        destruct Hinv as [Hlt|[Heq Hlt]].
        -- left. eapply Qle_lt_trans; eauto.
        -- destruct (Qlt_le_dec (quotient divisor (nth w votes 0%Z)
                                   (S (nth w seats 0))) X) as [Hl|Hg];
             [left; exact Hl|].
           right. split; auto. apply Qle_antisym; auto.
           rewrite Heq. exact Hdec.
      * rewrite incr_at_overflow by lia. apply Hinv; auto.
    + rewrite nth_incr_at_ne by auto. apply Hinv; auto.
Qed.

Lemma ha_loop_inv pol (votes : list Z) fuel (seats s : list nat) :
  Forall (fun v => (0 <= v)%Z) votes ->
  ha_inv votes seats ->
  ha_loop pol divisor votes fuel seats = Decided s -> ha_inv votes s.
Proof.
  intros Hnn. revert seats; induction fuel as [|f IH]; intros seats Hinv H;
    simpl in H.
  - injection H as <-. exact Hinv.
  - destruct (maximizers divisor votes seats) as [|w rest] eqn:Hm.
    + injection H as <-. exact Hinv.
    + pose proof (maximizers_cons_first divisor votes seats w rest Hm) as Hf.
      destruct rest as [|w' rest'].
      * eapply IH; [|exact H]. apply ha_inv_step; auto.
      * destruct pol; [discriminate|].
        eapply IH; [|exact H]. apply ha_inv_step; auto.
Qed.

(** Raising the votes of option [a] never costs it a seat. *)
Lemma ha_vote_monotone pol (votes votes' : list Z) a n (s s' : list nat) :
  Forall (fun v => (0 <= v)%Z) votes ->
  length votes' = length votes ->
  (forall j, j <> a -> nth j votes' 0%Z = nth j votes 0%Z) ->
  (nth a votes 0%Z <= nth a votes' 0%Z)%Z ->
  evaluate pol divisor votes n = Decided s ->
  evaluate pol divisor votes' n = Decided s' ->
  nth a s 0 <= nth a s' 0.
Proof.
  intros Hnn Hlen Hother Ha Hs Hs'.
  assert (Forall (fun v => (0 <= v)%Z) votes') as Hnn'.
  { apply Forall_forall. intros x Hx. apply list_elem_of_In in Hx.
    apply In_nth with (d := 0%Z) in Hx as [k [Hk <-]].
    destruct (decide (k = a)) as [->|Hka].
    - pose proof (nonneg_nth votes a Hnn). lia.
    - rewrite Hother by auto. apply nonneg_nth; auto. }
  unfold evaluate in Hs, Hs'. rewrite Hlen in Hs'.
  destruct (decide (nth a s' 0 < nth a s 0)) as [Hlt|Hge]; [exfalso|lia].
  destruct (ha_loop_sum divisor pol votes n _ s (repeat_length _ _) Hs)
    as [Hls Hsum].
  rewrite <- Hlen in Hs'.
  destruct (ha_loop_sum divisor pol votes' n _ s' (repeat_length _ _) Hs')
    as [Hls' Hsum'].
  assert (a < length votes) as Haln
    by (rewrite <- Hls; apply nth_pos_lt_length; lia).
  rewrite sum_repeat_0 in Hsum, Hsum'.
  destruct (sum_le_other_gt s s' a) as [j [Hja Hj]];
    [rewrite Hsum, Hsum' by lia; lia|exact Hlt|].
  assert (j < length votes) as Hjln
    by (rewrite <- Hlen, <- Hls'; apply nth_pos_lt_length; lia).
  pose proof (ha_loop_inv pol votes n _ s Hnn (ha_inv_init votes) Hs) as Hinv.
  pose proof (ha_loop_inv pol votes' n _ s' Hnn' (ha_inv_init votes') Hs')
    as Hinv'.
  specialize (Hinv a j Haln Hjln (not_eq_sym Hja) ltac:(lia)).
  specialize (Hinv' j a ltac:(lia) ltac:(lia) Hja ltac:(lia)).
  rewrite (Hother j Hja) in Hinv'.
  set (X := quotient divisor (nth a votes 0%Z) (nth a s 0 - 1)) in *.
  set (Y := quotient divisor (nth j votes 0%Z) (nth j s 0)) in *.
  set (Z' := quotient divisor (nth j votes 0%Z) (nth j s' 0 - 1)) in *.
  set (W := quotient divisor (nth a votes' 0%Z) (nth a s' 0)) in *.
  assert (Z' <= Y)%Q as HZY
    by (apply quotient_anti; [apply nonneg_nth; auto|lia]).
  assert (X <= W)%Q as HXW.
  { apply (Qle_trans _ (quotient divisor (nth a votes 0%Z) (nth a s' 0))).
    - apply quotient_anti; [apply nonneg_nth; auto|lia].
    - apply quotient_votes_mono. exact Ha. }
  unfold key_ge in Hinv, Hinv'.
  destruct Hinv as [HYX|[HXY Haj]].
  - assert (Z' < W)%Q as HZW.
    { apply (Qle_lt_trans _ Y); auto. apply (Qlt_le_trans _ X); auto. }
    destruct Hinv' as [HWZ|[HZW' _]].
    + apply (Qlt_irrefl Z'). apply (Qlt_trans _ W); auto.
    + rewrite HZW' in HZW. apply (Qlt_irrefl W); auto.
  - destruct Hinv' as [HWZ|[_ Hja']]; [|lia].
    apply (Qlt_irrefl X).
    apply (Qle_lt_trans _ W); auto. apply (Qlt_le_trans _ Z'); auto.
    rewrite HXY. exact HZY.
Qed.

End Mono.
End HAMonotone.

Module LRFacts.
Import HighestAverages LargestRemainder.

Lemma NoDup_fst_filter (P : nat * Z -> bool) (pool : list (nat * Z)) :
  NoDup (map fst pool) -> NoDup (map fst (List.filter P pool)).
Proof.
  induction pool as [|[k x] pool IH]; simpl; intros H; auto.
  apply NoDup_cons in H as [Hk Hnd].
  destruct (P (k, x)); simpl; auto.
  apply NoDup_cons; split; auto.
  intros Hin. apply Hk. apply list_elem_of_In in Hin. apply list_elem_of_In.
  apply in_map_iff in Hin as [[k' x'] [Heq Hin]].
  apply filter_In in Hin as [Hin _]. apply in_map_iff. exists (k', x'); auto.
Qed.

Lemma key_in_map (pool : list (nat * Z)) i r :
  In (i, r) pool -> In i (map fst pool).
Proof. intros H. apply in_map_iff. exists (i, r); auto. Qed.

(** Removing the only entry of key [i] loses exactly that entry. *)
Lemma length_filter_without (P : nat * Z -> bool) (pool : list (nat * Z)) i r :
  NoDup (map fst pool) -> In (i, r) pool ->
  (length (List.filter P (without i pool)) + (if P (i, r) then 1 else 0) =
   length (List.filter P pool))%nat.
Proof.
  induction pool as [|[k x] pool IH]; simpl; intros Hnd Hin; [contradiction|].
  apply NoDup_cons in Hnd as [Hk Hnd].
  destruct Hin as [Heq|Hin].
  - injection Heq as -> ->. rewrite Nat.eqb_refl. simpl.
    assert (without i pool = pool) as ->.
    { apply forallb_filter_id, forallb_forall. intros [k' x'] Hin'.
      simpl. destruct (k' =? i) eqn:E; auto. apply Nat.eqb_eq in E; subst.
      exfalso. apply Hk. apply list_elem_of_In. eapply key_in_map; eauto. }
    destruct (P (i, r)); simpl; lia.
  - assert (k <> i) as Hki.
    { intros ->. apply Hk. apply list_elem_of_In. eapply key_in_map; eauto. }
    apply Nat.eqb_neq in Hki. rewrite Hki. simpl.
    specialize (IH Hnd Hin). unfold without in *.
    destruct (P (k, x)); simpl; lia.
Qed.

Lemma length_without (pool : list (nat * Z)) i r :
  NoDup (map fst pool) -> In (i, r) pool ->
  S (length (without i pool)) = length pool.
Proof.
  intros Hnd Hin.
  pose proof (length_filter_without (fun _ => true) pool i r Hnd Hin) as Hl.
  rewrite !filter_true in Hl. lia.
Qed.

Lemma in_without (pool : list (nat * Z)) i p :
  In p (without i pool) <-> In p pool /\ p.1 <> i.
Proof.
  unfold without. rewrite filter_In. rewrite negb_true_iff, Nat.eqb_neq. tauto.
Qed.

Lemma NoDup_without (pool : list (nat * Z)) i :
  NoDup (map fst pool) -> NoDup (map fst (without i pool)).
Proof. apply NoDup_fst_filter. Qed.

(** The options with the largest remainder. *)
Lemma top_spec (pool : list (nat * Z)) i :
  In i (top pool) <->
  exists r, In (i, r) pool /\ forall p, In p pool -> (p.2 <= r)%Z.
Proof.
  unfold top. rewrite in_map_iff. split.
  - intros [[k r] [<- Hin]]. apply filter_In in Hin as [Hin Hmax].
    exists r. split; [auto|]. intros p Hp.
    rewrite forallb_forall in Hmax. specialize (Hmax p Hp). apply Z.leb_le in Hmax.
    exact Hmax.
  - intros [r [Hin Hmax]]. exists (i, r). split; [auto|].
    apply filter_In. split; [auto|]. apply forallb_forall. intros p Hp.
    apply Z.leb_le. auto.
Qed.

Lemma exists_max_entry (pool : list (nat * Z)) :
  pool <> [] -> exists p, In p pool /\ forall p', In p' pool -> (p'.2 <= p.2)%Z.
Proof.
  induction pool as [|x pool IH]; intros H; [congruence|].
  destruct pool as [|y pool].
  - exists x. split; [left; auto|]. intros p' [<-|[]]. lia.
  - destruct (IH ltac:(discriminate)) as [p [Hp Hmax]].
    destruct (Z.le_ge_cases x.2 p.2) as [Hle|Hge].
    + exists p. split; [right; auto|]. intros p' [<-|Hp']; auto.
    + exists x. split; [left; auto|]. intros p' [<-|Hp']; [lia|].
      specialize (Hmax p' Hp'). lia.
Qed.

Lemma top_nil (pool : list (nat * Z)) : top pool = [] -> pool = [].
Proof.
  intros H. destruct pool as [|x pool]; auto. exfalso.
  destruct (exists_max_entry (x :: pool) ltac:(discriminate)) as [[k r] [Hin Hmax]].
  assert (Hk : In k (top (x :: pool))) by (apply top_spec; exists r; auto).
  rewrite H in Hk. contradiction.
Qed.

Lemma length_top (pool : list (nat * Z)) : length (top pool) <= length pool.
Proof. unfold top. rewrite length_map. apply filter_length_le. Qed.

Lemma filter_short {A} (f : A -> bool) (l : list A) :
  length (List.filter f l) < length l -> exists x, In x l /\ f x = false.
Proof.
  induction l as [|x l IH]; simpl; intros H; [lia|].
  destruct (f x) eqn:E.
  - simpl in H. destruct IH as [y [Hy Hf]]; [lia|]. exists y; auto.
  - exists x. auto.
Qed.

Lemma forallb_false_ex {A} (f : A -> bool) (l : list A) :
  forallb f l = false -> exists x, In x l /\ f x = false.
Proof.
  induction l as [|x l IH]; simpl; intros H; [discriminate|].
  destruct (f x) eqn:E; simpl in H.
  - destruct (IH H) as [y [Hy Hf]]. exists y; auto.
  - exists x; auto.
Qed.

(** When some option of the pool is not among the largest remainders, the
    largest remainder exceeds a non-negative one, so it is positive. *)
Lemma top_positive (pool : list (nat * Z)) i :
  (forall p, In p pool -> (0 <= p.2)%Z) ->
  length (top pool) < length pool ->
  In i (top pool) -> exists r, In (i, r) pool /\ (0 < r)%Z.
Proof.
  intros Hnn Hshort Htop.
  unfold top in Hshort. rewrite length_map in Hshort.
  destruct (filter_short _ _ Hshort) as [p [Hp Hf]].
  apply forallb_false_ex in Hf as [p' [Hp' Hlt]]. apply Z.leb_gt in Hlt.
  apply top_spec in Htop as [r [Hin Hmax]].
  exists r. split; [auto|]. specialize (Hmax p' Hp'). specialize (Hnn p Hp). lia.
Qed.

Definition extra_of (o : award_outcome) : list nat :=
  match o with
  | Served e => e
  | TieIn e _ _ => e
  | OutOfOptions e => e
  end.

Lemma extra_served_first i o : extra_of (served_first i o) = i :: extra_of o.
Proof. destruct o; reflexivity. Qed.

Lemma award_keys pol f (pool : list (nat * Z)) i :
  In i (extra_of (award_remainders pol f pool)) -> exists r, In (i, r) pool.
Proof.
  revert pool; induction f as [|f IH]; intros pool H; simpl in H; [contradiction|].
  destruct (top pool) as [|k rest] eqn:Ht; [contradiction|].
  assert (Hk : In k (top pool)) by (rewrite Ht; left; auto).
  apply top_spec in Hk as [r [Hin _]].
  destruct (match pol with FirstListed => true | ReportTie => length rest <=? f end);
    [|contradiction].
  rewrite extra_served_first in H.
  destruct H as [<-|H]; [exists r; auto|].
  destruct (IH _ H) as [r' Hr']. apply in_without in Hr' as [Hr' _]. eauto.
Qed.

Lemma award_NoDup pol f (pool : list (nat * Z)) :
  NoDup (extra_of (award_remainders pol f pool)).
Proof.
  revert pool; induction f as [|f IH]; intros pool; simpl; [constructor|].
  destruct (top pool) as [|k rest] eqn:Ht; [constructor|].
  destruct (match pol with FirstListed => true | ReportTie => length rest <=? f end);
    [|constructor].
  rewrite extra_served_first. apply NoDup_cons; split; auto.
  intros Hin. apply list_elem_of_In in Hin.
  destruct (award_keys _ _ _ _ Hin) as [r' Hr']. apply in_without in Hr'.
  simpl in Hr'. tauto.
Qed.

(** Seats handed out: all [f] when served, [f] minus the open seats at a
    tie; the award runs out of options exactly when the pool is smaller
    than [f]. *)
Lemma award_counts pol f (pool : list (nat * Z)) :
  NoDup (map fst pool) ->
  match award_remainders pol f pool with
  | Served e => length e = f
  | TieIn e tied k =>
      length e + k = f /\ 0 < k /\ pol = ReportTie /\ k < length tied /\
      (forall i, In i tied -> exists r, In (i, r) pool)
  | OutOfOptions e => length pool < f
  end /\
  ((exists e, award_remainders pol f pool = OutOfOptions e) <-> length pool < f).
Proof.
  revert pool; induction f as [|f IH]; intros pool Hnd; simpl.
  - split; [reflexivity|]. split; [intros [? [=]]|lia].
  - destruct (top pool) as [|k rest] eqn:Ht.
    + apply top_nil in Ht. subst. simpl. split; [lia|]. split; [lia|eauto].
    + assert (Hk : In k (top pool)) by (rewrite Ht; left; auto).
      apply top_spec in Hk as [r [Hin _]].
      pose proof (length_without pool k r Hnd Hin) as Hlw.
      pose proof (length_top pool) as Hlt. rewrite Ht in Hlt. simpl in Hlt.
      destruct (match pol with FirstListed => true | ReportTie => length rest <=? f end)
        eqn:Hc.
      * destruct (IH (without k pool) (NoDup_without _ _ Hnd)) as [H1 H2].
        destruct (award_remainders pol f (without k pool)) as [e|e t j|e];
          simpl in *.
        -- split; [lia|]. split; [intros [? [=]]|].
           intros Hlp. destruct (proj2 H2 ltac:(lia)) as [? [=]].
        -- destruct H1 as (Ha & Hb & Hc' & Hd & Hkeys).
           split; [split; [lia|split; [auto|split; [auto|split; [auto|]]]]|].
           ++ intros i Hi. destruct (Hkeys i Hi) as [r' Hr'].
              apply in_without in Hr' as [Hr' _]. eauto.
           ++ split; [intros [? [=]]|]. intros Hlp.
              destruct (proj2 H2 ltac:(lia)) as [? [=]].
        -- split; [lia|]. split; [intros _; lia|eauto].
      * destruct pol; [|discriminate]. apply Nat.leb_gt in Hc.
        split.
        -- simpl. split; [lia|split; [lia|split; [auto|split; [lia|]]]].
           intros i Hi. assert (Hi2 : In i (top pool)) by (rewrite Ht; exact Hi).
           apply top_spec in Hi2 as [r2 [Hr2 _]]. eauto.
        -- split; [intros [? [=]]|lia].
Qed.

Definition npos (pool : list (nat * Z)) : nat :=
  length (List.filter (fun p => (0 <? p.2)%Z) pool).

(** While the leftover seats do not outnumber the options with a non-zero
    remainder, every served option has a non-zero remainder. *)
Lemma award_positive pol f (pool : list (nat * Z)) i :
  NoDup (map fst pool) -> f <= npos pool ->
  In i (extra_of (award_remainders pol f pool)) -> exists r, In (i, r) pool /\ (0 < r)%Z.
Proof.
  revert pool; induction f as [|f IH]; intros pool Hnd Hf H; simpl in H;
    [contradiction|].
  destruct (top pool) as [|k rest] eqn:Ht; [contradiction|].
  assert (Hk : In k (top pool)) by (rewrite Ht; left; auto).
  apply top_spec in Hk as [r [Hin Hmax]].
  destruct (match pol with FirstListed => true | ReportTie => length rest <=? f end);
    [|contradiction].
  rewrite extra_served_first in H.
  assert (0 < r)%Z as Hr.
  { unfold npos in Hf.
    destruct (List.filter (fun p => (0 <? p.2)%Z) pool) as [|p ps] eqn:Hfl;
      simpl in Hf; [lia|].
    assert (In p (List.filter (fun p => (0 <? p.2)%Z) pool)) as Hp
      by (rewrite Hfl; left; auto).
    apply filter_In in Hp as [Hp Hpos]. apply Z.ltb_lt in Hpos.
    specialize (Hmax p Hp). lia. }
  destruct H as [<-|H]; [exists r; auto|].
  destruct (IH (without k pool)) as [r' [Hr' Hpos']]; auto.
  - apply NoDup_without; auto.
  - pose proof (length_filter_without (fun p => (0 <? p.2)%Z) pool k r Hnd Hin)
      as Hl.
    simpl in Hl. replace (0 <? r)%Z with true in Hl by (symmetry; apply Z.ltb_lt; auto).
    unfold npos in *. lia.
  - apply in_without in Hr' as [Hr' _]. eauto.
Qed.

(** Without a tie-break policy, while fewer seats are open than options
    remain, every served option has a non-zero remainder: an option with a
    zero remainder is only reached once all remaining options share the
    largest remainder, and then they are more than the open seats. *)
Lemma award_positive_report f (pool : list (nat * Z)) i :
  NoDup (map fst pool) -> (forall p, In p pool -> (0 <= p.2)%Z) ->
  f < length pool ->
  In i (extra_of (award_remainders ReportTie f pool)) ->
  exists r, In (i, r) pool /\ (0 < r)%Z.
Proof.
  revert pool; induction f as [|f IH]; intros pool Hnd Hnn Hf H; simpl in H;
    [contradiction|].
  destruct (top pool) as [|k rest] eqn:Ht; [contradiction|].
  destruct (length rest <=? f) eqn:Hc; [|contradiction].
  apply Nat.leb_le in Hc.
  assert (Hk : In k (top pool)) by (rewrite Ht; left; auto).
  pose proof Hk as Hk'. apply top_spec in Hk' as [r [Hin _]].
  rewrite extra_served_first in H.
  destruct H as [<-|H].
  - apply top_positive; auto. rewrite Ht. simpl. lia.
  - pose proof (length_without pool k r Hnd Hin).
    destruct (IH (without k pool)) as [r' [Hr' Hpos']]; auto.
    + apply NoDup_without; auto.
    + intros p Hp. apply in_without in Hp as [Hp _]. auto.
    + lia.
    + apply in_without in Hr' as [Hr' _]. eauto.
Qed.

End LRFacts.
Module LREval.
Import HighestAverages LargestRemainder LRFacts.

Lemma length_incrZ_at i l : length (incrZ_at i l) = length l.
Proof.
  revert i; induction l as [|x l IH]; intros [|i]; simpl; auto.
Qed.

Lemma sum_incrZ_at i l : i < length l -> sum_Z (incrZ_at i l) = (sum_Z l + 1)%Z.
Proof.
  revert i; induction l as [|x l IH]; intros [|i] H; simpl in *; try lia.
  unfold sum_Z in *. simpl. rewrite IH by lia. lia.
Qed.

Lemma nth_incrZ_at i k l :
  i < length l ->
  nth k (incrZ_at i l) 0%Z = (nth k l 0 + if Nat.eqb k i then 1 else 0)%Z.
Proof.
  revert i k; induction l as [|x l IH]; intros [|i] [|k] H; simpl in *;
    try lia; auto.
  apply IH. lia.
Qed.

Definition count (k : nat) (l : list nat) : nat :=
  length (List.filter (Nat.eqb k) l).

Lemma foldl_incrZ (extra : list nat) (base : list Z) :
  Forall (fun i => i < length base) extra ->
  length (foldl (fun s i => incrZ_at i s) base extra) = length base /\
  sum_Z (foldl (fun s i => incrZ_at i s) base extra) =
    (sum_Z base + Z.of_nat (length extra))%Z /\
  forall k, nth k (foldl (fun s i => incrZ_at i s) base extra) 0%Z =
    (nth k base 0 + Z.of_nat (count k extra))%Z.
Proof.
  revert base; induction extra as [|i extra IH]; intros base H; simpl.
  - split; [auto|split; [lia|]]. intros k. unfold count. simpl. lia.
  - apply Forall_cons in H as [Hi H].
    destruct (IH (incrZ_at i base)) as [H1 [H2 H3]].
    { rewrite length_incrZ_at. auto. }
    rewrite length_incrZ_at in H1. split; [auto|split].
    + rewrite H2, sum_incrZ_at by auto. lia.
    + intros k. rewrite H3, nth_incrZ_at by auto. unfold count. simpl.
      destruct (Nat.eqb k i); simpl; lia.
Qed.

Lemma count_NoDup k l : NoDup l -> count k l <= 1.
Proof.
  intros Hnd. unfold count. induction l as [|x l IH]; simpl; [lia|].
  apply NoDup_cons in Hnd as [Hx Hnd].
  destruct (k =? x) eqn:E; simpl; auto.
  apply Nat.eqb_eq in E. subst.
  assert (List.filter (Nat.eqb x) l = []) as ->; simpl; auto.
  destruct (List.filter (Nat.eqb x) l) as [|y ys] eqn:Hf; auto.
  assert (In y (List.filter (Nat.eqb x) l)) as Hy by (rewrite Hf; left; auto).
  apply filter_In in Hy as [Hy Hxy]. apply Nat.eqb_eq in Hxy. subst.
  exfalso. apply Hx. apply list_elem_of_In. auto.
Qed.

Lemma count_notin k l : ~ In k l -> count k l = 0.
Proof.
  unfold count. induction l as [|x l IH]; simpl; intros H; auto.
  destruct (k =? x) eqn:E.
  - apply Nat.eqb_eq in E. exfalso. auto.
  - apply IH. tauto.
Qed.

Lemma in_zip_seq a (l : list Z) k r :
  In (k, r) (zip (seq a (length l)) l) ->
  a <= k < a + length l /\ r = nth (k - a) l 0%Z.
Proof.
  revert a; induction l as [|x l IH]; intros a H; simpl in H; [contradiction|].
  destruct H as [H|H].
  - injection H as <- <-. simpl. rewrite Nat.sub_diag. simpl. lia.
  - destruct (IH (S a) H) as [Hk Hr]. simpl. split; [lia|].
    replace (k - a) with (S (k - S a)) by lia. auto.
Qed.

Lemma fst_zip_seq a (l : list Z) :
  map fst (zip (seq a (length l)) l) = seq a (length l).
Proof.
  revert a; induction l as [|x l IH]; intros a; simpl; auto. rewrite IH. auto.
Qed.

Lemma length_zip_seq a (l : list Z) : length (zip (seq a (length l)) l) = length l.
Proof.
  revert a; induction l as [|x l IH]; intros a; simpl; auto.
Qed.

Lemma npos_zip_seq a (l : list Z) :
  npos (zip (seq a (length l)) l) = length (List.filter (fun r => 0 <? r)%Z l).
Proof.
  unfold npos. revert a; induction l as [|x l IH]; intros a; simpl; auto.
  destruct (0 <? x)%Z; simpl; auto.
Qed.

Lemma nth_map_0 (f : Z -> Z) (l : list Z) k :
  f 0%Z = 0%Z -> nth k (map f l) 0%Z = f (nth k l 0%Z).
Proof.
  intros Hf. revert k; induction l as [|x l IH]; intros [|k]; simpl; auto.
Qed.

Lemma quota_floor q v :
  (0 < Qnum q)%Z -> quota_seats q v = Qfloor (inject_Z v / q).
Proof.
  destruct q as [[|p|p] d]; simpl; intros H; try lia.
  unfold quota_seats, scaled, Qfloor, Qdiv, Qmult, Qinv, inject_Z; simpl.
  reflexivity.
Qed.

Lemma quota_ceil q v :
  (0 < Qnum q)%Z ->
  Qceiling (inject_Z v / q) =
    (quota_seats q v + if (remainder q v =? 0)%Z then 0 else 1)%Z.
Proof.
  destruct q as [[|p|p] d]; simpl; intros H; try lia.
  unfold quota_seats, remainder, scaled, Qceiling, Qfloor, Qdiv, Qmult, Qinv,
    Qopp, inject_Z; simpl.
  change (Zpos (1 * p)) with (Zpos p).
  destruct (Z.eqb_spec ((v * Zpos d) mod Zpos p) 0) as [E|E].
  - rewrite Z.div_opp_l_z by lia. lia.
  - rewrite Z.div_opp_l_nz by lia. lia.
Qed.

Lemma remainder_nonneg q v : (0 < Qnum q)%Z -> (0 <= remainder q v)%Z.
Proof.
  intros H. unfold remainder. apply Z.mod_pos_bound. auto.
Qed.

(** The options whose quotient [votes / quota] is not a whole number are
    those with a non-zero remainder. *)
Lemma fractional_iff q v :
  (0 < Qnum q)%Z ->
  (Qfloor (inject_Z v / q) <? Qceiling (inject_Z v / q))%Z = (0 <? remainder q v)%Z.
Proof.
  intros H. rewrite quota_ceil, <- quota_floor by auto.
  pose proof (remainder_nonneg q v H).
  destruct (Z.eqb_spec (remainder q v) 0) as [E|E].
  - rewrite E. simpl. rewrite Z.add_0_r. apply Z.ltb_irrefl.
  - transitivity true; [apply Z.ltb_lt; lia|symmetry; apply Z.ltb_lt; lia].
Qed.

Lemma sum_map_ext (f g : Z -> Z) l :
  (forall v, f v = g v) -> sum_Z (map f l) = sum_Z (map g l).
Proof. intros H. induction l as [|x l IH]; simpl; auto. unfold sum_Z in *; simpl. rewrite H, IH. auto. Qed.

Lemma filter_ext_Z (f g : Z -> bool) (l : list Z) :
  (forall v, f v = g v) -> List.filter f l = List.filter g l.
Proof. intros H. induction l as [|x l IH]; simpl; auto. rewrite H, IH. auto. Qed.

Lemma length_filter_map (f : Z -> bool) (g : Z -> Z) (l : list Z) :
  length (List.filter f (map g l)) = length (List.filter (fun v => f (g v)) l).
Proof.
  induction l as [|x l IH]; simpl; auto. destruct (f (g x)); simpl; auto.
Qed.

Lemma sum_div_mod (D : Z) (l : list Z) :
  D <> 0%Z ->
  sum_Z l = (D * sum_Z (map (fun x => x / D) l) + sum_Z (map (fun x => x mod D) l))%Z.
Proof.
  intros HD. induction l as [|x l IH]; [unfold sum_Z; simpl; lia|].
  unfold sum_Z in *. simpl. rewrite IH at 1.
  pose proof (Z.div_mod x D HD). lia.
Qed.

Lemma sum_map_mul (c : Z) (l : list Z) :
  sum_Z (map (fun v => v * c)%Z l) = (sum_Z l * c)%Z.
Proof. induction l as [|x l IH]; unfold sum_Z in *; simpl; lia. Qed.

Lemma sum_mod_bound (D : Z) (l : list Z) :
  (0 < D)%Z ->
  (0 <= sum_Z (map (fun x => x mod D) l) <=
   (D - 1) * Z.of_nat (length (List.filter (fun x => 0 <? x mod D) l)))%Z.
Proof.
  intros HD. induction l as [|x l IH]; simpl; [unfold sum_Z; simpl; lia|].
  unfold sum_Z in *. simpl. pose proof (Z.mod_pos_bound x D HD).
  destruct (0 <? x mod D)%Z eqn:E; simpl.
  - lia.
  - apply Z.ltb_ge in E. lia.
Qed.

(** Under the Hare quota the floors never exceed the seat count, and the
    leftover seats are at most the options with a fractional quotient. *)
Lemma hare_leftover votes n :
  (0 < sum_Z votes)%Z -> 0 < n ->
  let q := Quota.hare (sum_Z votes) n in
  (0 < Qnum q)%Z /\
  (sum_Z (map (quota_seats q) votes) <= Z.of_nat n)%Z /\
  (Z.of_nat n - sum_Z (map (quota_seats q) votes) <=
   Z.of_nat (length (List.filter (fun v => 0 <? remainder q v)%Z votes)))%Z.
Proof.
  intros HV Hn q.
  destruct n as [|n']; [lia|].
  assert (Hq : Qnum q = sum_Z votes /\ Zpos (Qden q) = Z.of_nat (S n')).
  { unfold q, Quota.hare, Qdiv, Qmult, Qinv, inject_Z.
    change (Z.of_nat (S n')) with (Zpos (Pos.of_succ_nat n')).
    simpl. split; lia. }
  destruct Hq as [Hnum Hden].
  set (V := sum_Z votes) in *.
  assert (Hsd : forall v, quota_seats q v = (v * Z.of_nat (S n') / V)%Z /\
                          remainder q v = (v * Z.of_nat (S n') mod V)%Z).
  { intros v. unfold quota_seats, remainder, scaled. rewrite Hnum, Hden. auto. }
  rewrite (map_ext (quota_seats q) (fun v => v * Z.of_nat (S n') / V)%Z)
    by (intros v; apply Hsd).
  rewrite (filter_ext_Z _ (fun v => 0 <? v * Z.of_nat (S n') mod V)%Z)
    by (intros v; rewrite (proj2 (Hsd v)); auto).
  pose proof (sum_div_mod V (map (fun v => v * Z.of_nat (S n'))%Z votes)) as Hdm.
  rewrite sum_map_mul, !map_map in Hdm.
  pose proof (sum_mod_bound V (map (fun v => v * Z.of_nat (S n'))%Z votes) HV)
    as Hb.
  rewrite map_map, length_filter_map in Hb.
  fold V in Hdm. specialize (Hdm ltac:(lia)).
  split; [lia|]. split; nia.
Qed.


Lemma pool_props q votes :
  let pool := zip (seq 0 (length votes)) (map (remainder q) votes) in
  NoDup (map fst pool) /\ length pool = length votes /\
  (forall i r, In (i, r) pool -> i < length votes /\ r = remainder q (nth i votes 0%Z)) /\
  npos pool = length (List.filter (fun v => 0 <? remainder q v)%Z votes).
Proof.
  intros pool.
  assert (Hp : pool = zip (seq 0 (length (map (remainder q) votes)))
                          (map (remainder q) votes))
    by (unfold pool; rewrite length_map; reflexivity).
  rewrite Hp. split; [|split; [|split]].
  - rewrite fst_zip_seq. apply NoDup_seq.
  - rewrite !length_zip_seq, length_map. reflexivity.
  - intros i r Hin. apply in_zip_seq in Hin as [Hi Hr]. rewrite length_map in Hi.
    rewrite Nat.sub_0_r in Hr. rewrite (nth_map_0 (remainder q)) in Hr by reflexivity.
    split; [lia|auto].
  - rewrite npos_zip_seq, length_filter_map. reflexivity.
Qed.

(** How [evaluate] turns the floors and the award of the leftover seats
    into its result. *)
Lemma evaluate_unfold pol qf votes n :
  (0 < Qnum (qf (sum_Z votes) n))%Z ->
  let q := qf (sum_Z votes) n in
  let floors := map (fun v => Qfloor (inject_Z v / q)) votes in
  let pool := zip (seq 0 (length votes)) (map (remainder q) votes) in
  evaluate pol qf votes n =
    if (Z.of_nat n <? sum_Z floors)%Z then Overaward else
    match award_remainders pol (Z.to_nat (Z.of_nat n - sum_Z floors)) pool with
    | Served extra => Ok (add_seats floors extra)
    | TieIn extra tied k => TieAt tied k (add_seats floors extra)
    | OutOfOptions _ => Underaward
    end.
Proof.
  intros Hq q floors pool.
  assert (Hfl : floors = map (quota_seats q) votes).
  { unfold floors. apply map_ext. intros v. symmetry. apply quota_floor. auto. }
  rewrite Hfl. reflexivity.
Qed.

(** The seats of [add_seats floors extra] when [extra] lists distinct
    options of the pool: one more than the floor for the listed options. *)
Lemma add_seats_props q votes (extra : list nat) :
  let floors := map (fun v => Qfloor (inject_Z v / q)) votes in
  NoDup extra -> (forall i, In i extra -> i < length votes) ->
  length (add_seats floors extra) = length votes /\
  sum_Z (add_seats floors extra) = (sum_Z floors + Z.of_nat (length extra))%Z /\
  forall k, nth k (add_seats floors extra) 0%Z =
    (nth k floors 0 + if in_dec Nat.eq_dec k extra then 1 else 0)%Z.
Proof.
  intros floors Hnd Hin.
  assert (Hlen : length floors = length votes) by apply length_map.
  assert (Hr : Forall (fun i => i < length floors) extra).
  { apply Forall_forall. intros i Hi. apply list_elem_of_In in Hi. rewrite Hlen. auto. }
  destruct (foldl_incrZ extra floors Hr) as [H1 [H2 H3]].
  unfold add_seats. split; [lia|split; [auto|]].
  intros k. rewrite H3. destruct (in_dec Nat.eq_dec k extra) as [Hk|Hk].
  - assert (Hc : count k extra <> 0).
    { unfold count. intros Hc. apply length_zero_iff_nil in Hc.
      assert (In k (List.filter (Nat.eqb k) extra)) as Hf
        by (apply filter_In; split; [auto|apply Nat.eqb_refl]).
      rewrite Hc in Hf. contradiction. }
    pose proof (count_NoDup k extra Hnd). lia.
  - rewrite count_notin by auto. lia.
Qed.

(** An option served by the leftover award with a non-zero remainder stays
    within the ceiling of its quotient, and so does every option not served. *)
Lemma within_ceiling q votes (extra : list nat) k :
  (0 < Qnum q)%Z -> k < length votes ->
  (In k extra -> (0 < remainder q (nth k votes 0%Z))%Z) ->
  (nth (A:=Z) k (map (fun v => Qfloor (inject_Z v / q)) votes) 0 +
     (if in_dec Nat.eq_dec k extra then 1 else 0) <=
   Qceiling (inject_Z (nth k votes 0) / q))%Z.
Proof.
  intros Hq Hk Hpos.
  rewrite (nth_map_0 (fun v => Qfloor (inject_Z v / q)))
    by (unfold Qfloor; simpl; rewrite Z.div_0_l; [reflexivity|]; destruct q as [? ?]; simpl; lia).
  rewrite <- quota_floor, quota_ceil by auto.
  destruct (in_dec Nat.eq_dec k extra) as [Hin|Hin].
  - specialize (Hpos Hin).
    destruct (remainder q (nth k votes 0%Z) =? 0)%Z eqn:E;
      [apply Z.eqb_eq in E; lia|lia].
  - destruct (remainder q (nth k votes 0%Z) =? 0)%Z; lia.
Qed.

(** What a largest-remainder evaluation returns, for any quota with a
    positive numerator: an overaward exactly when the floors exceed the
    seats; an underaward exactly when the leftover seats outnumber the
    options; otherwise every seat is awarded ([Ok]) or a tie is reported
    with the seats awarded before it and the open seats. *)
Lemma lr_cases pol qf votes n :
  (0 < Qnum (qf (sum_Z votes) n))%Z ->
  let q := qf (sum_Z votes) n in
  let floors := map (fun v => Qfloor (inject_Z v / q)) votes in
  let left := (Z.of_nat n - sum_Z floors)%Z in
  let nfrac := length (List.filter
        (fun v => Qfloor (inject_Z v / q) <? Qceiling (inject_Z v / q))%Z votes) in
  (evaluate pol qf votes n = Overaward <-> (left < 0)%Z) /\
  (evaluate pol qf votes n = Underaward <-> (Z.of_nat (length votes) < left)%Z) /\
  (forall s, evaluate pol qf votes n = Ok s ->
     length s = length votes /\ sum_Z s = Z.of_nat n /\
     (forall k, k < length votes ->
        (nth k floors 0 <= nth k s 0 <= nth k floors 0 + 1)%Z) /\
     ((left <= Z.of_nat nfrac)%Z \/
      (pol = ReportTie /\ (left < Z.of_nat (length votes))%Z) ->
      forall k, k < length votes ->
        (nth k s 0 <= Qceiling (inject_Z (nth k votes 0) / q))%Z)) /\
  (forall tied k aw, evaluate pol qf votes n = TieAt tied k aw ->
     pol = ReportTie /\ 0 < k /\ k < length tied /\
     (forall i, In i tied -> i < length votes) /\
     length aw = length votes /\ (sum_Z aw + Z.of_nat k)%Z = Z.of_nat n /\
     (forall j, j < length votes ->
        (nth j floors 0 <= nth j aw 0 <= nth j floors 0 + 1)%Z)).
Proof.
  intros Hq q floors left nfrac.
  rewrite (evaluate_unfold pol qf votes n Hq). fold q floors.
  destruct (pool_props q votes) as (Hnd & Hplen & Hpin & Hnpos).
  set (pool := zip (seq 0 (length votes)) (map (remainder q) votes)) in *.
  assert (Hnn : forall p, In p pool -> (0 <= p.2)%Z).
  { intros [i r] Hp. apply Hpin in Hp as [_ ->]. apply remainder_nonneg. auto. }
  assert (Hnfrac : nfrac = length (List.filter (fun v => 0 <? remainder q v)%Z votes)).
  { unfold nfrac. f_equal. apply filter_ext_Z. intros v. apply fractional_iff. auto. }
  assert (Hkeys : forall e, (forall i, In i e -> exists r, In (i, r) pool) ->
                  forall i, In i e -> i < length votes).
  { intros e He i Hi. destruct (He i Hi) as [r Hr]. apply Hpin in Hr. tauto. }
  destruct (Z.of_nat n <? sum_Z floors)%Z eqn:Hover.
  - apply Z.ltb_lt in Hover.
    split; [split; [intros _; unfold left; lia|reflexivity]|].
    split; [split; [discriminate|unfold left; lia]|].
    split; [intros s [=]|intros tied k aw [=]].
  - apply Z.ltb_ge in Hover.
    set (f := Z.to_nat (Z.of_nat n - sum_Z floors)).
    assert (Hf : Z.of_nat f = left) by (unfold f, left; lia).
    destruct (award_counts pol f pool Hnd) as [Hc Hout].
    pose proof (award_NoDup pol f pool) as HndE.
    pose proof (award_keys pol f pool) as HkE.
    destruct (award_remainders pol f pool) as [e|e tied k|e] eqn:Ha; simpl in HndE, HkE.
    + split; [split; [discriminate|unfold left; lia]|].
      split; [split; [discriminate|intros Hl; destruct (proj2 Hout ltac:(lia)) as [? [=]]]|].
      split; [|intros tied k aw [=]].
      intros s [= <-].
      destruct (add_seats_props q votes e HndE (Hkeys e HkE)) as (Hl & Hs & Hn).
      fold floors in Hl, Hs, Hn.
      split; [auto|split; [rewrite Hs, Hc; lia|split]].
      * intros k Hk. rewrite Hn. destruct (in_dec Nat.eq_dec k e); lia.
      * intros Hcond k Hk. rewrite Hn. apply within_ceiling; auto.
        intros Hin.
        assert (Hr : exists r, In (k, r) pool /\ (0 < r)%Z).
        { destruct Hcond as [Hcond|[-> Hcond]].
          - apply (award_positive pol f pool k Hnd); [lia|rewrite Ha; exact Hin].
          - apply (award_positive_report f pool k Hnd Hnn); [lia|rewrite Ha; exact Hin]. }
        destruct Hr as [r [Hr Hpos]]. apply Hpin in Hr as [_ <-]. auto.
    + destruct Hc as (Hlen & Hk & Hpol & Hkt & Htk).
      split; [split; [discriminate|unfold left; lia]|].
      split; [split; [discriminate|intros Hl; destruct (proj2 Hout ltac:(lia)) as [? [=]]]|].
      split; [intros s [=]|].
      intros tied' k' aw [= <- <- <-].
      destruct (add_seats_props q votes e HndE (Hkeys e HkE)) as (Hl & Hs & Hn).
      fold floors in Hl, Hs, Hn.
      split; [auto|split; [auto|split; [auto|split; [apply Hkeys; auto|]]]].
      split; [auto|split; [rewrite Hs; lia|]].
      intros j Hj. rewrite Hn. destruct (in_dec Nat.eq_dec j e); lia.
    + split; [split; [discriminate|unfold left; lia]|].
      split; [split; [intros _; lia|reflexivity]|].
      split; [intros s [=]|intros tied k aw [=]].
Qed.

(** Under the Hare quota (positive vote total, [n > 0]) the evaluation
    neither overawards nor underawards, and the leftover seats are at most
    the options whose quotient is not a whole number. *)
Lemma hare_cases pol votes n :
  (0 < sum_Z votes)%Z -> 0 < n ->
  let q := Quota.hare (sum_Z votes) n in
  (0 < Qnum q)%Z /\
  evaluate pol Quota.hare votes n <> Overaward /\
  evaluate pol Quota.hare votes n <> Underaward /\
  (Z.of_nat n - sum_Z (map (fun v => Qfloor (inject_Z v / q)) votes) <=
   Z.of_nat (length (List.filter
     (fun v => Qfloor (inject_Z v / q) <? Qceiling (inject_Z v / q))%Z votes)))%Z.
Proof.
  intros HV Hn q.
  destruct (hare_leftover votes n HV Hn) as [Hq [Hover Hleft]]. fold q in Hq, Hover, Hleft.
  assert (Hfl : map (fun v => Qfloor (inject_Z v / q)) votes = map (quota_seats q) votes).
  { apply map_ext. intros v. symmetry. apply quota_floor. auto. }
  assert (Hfr : List.filter
     (fun v => Qfloor (inject_Z v / q) <? Qceiling (inject_Z v / q))%Z votes =
     List.filter (fun v => 0 <? remainder q v)%Z votes)
    by (apply filter_ext_Z; intros v; apply fractional_iff; auto).
  destruct (lr_cases pol Quota.hare votes n Hq) as (Ho & Hu & _ & _).
  fold q in Ho, Hu. rewrite Hfl in Ho, Hu. rewrite Hfl, Hfr.
  assert (Hlen : length (List.filter (fun v => 0 <? remainder q v)%Z votes) <= length votes)
    by apply filter_length_le.
  split; [auto|split; [intros Hx; apply Ho in Hx; lia|split; [intros Hx; apply Hu in Hx; lia|lia]]].
Qed.


End LREval.

Module SeatTotals.
Import HighestAverages.




End SeatTotals.

Module FanoutFacts.
Import HighestAverages ByConstituency.


















End FanoutFacts.

Module BPFacts.
Import Biproportional.

Lemma marginals_ok_true rtot ctot m :
  marginals_ok rtot ctot m = true ->
  row_sums m = map Z.of_nat rtot /\ col_sums (length ctot) m = map Z.of_nat ctot.
Proof.
  unfold marginals_ok. intros H. apply andb_true_iff in H as [H1 H2].
  apply bool_decide_eq_true in H1, H2. auto.
Qed.

Lemma bp_loop_converged votes rtot ctot fuel d m :
  bp_loop votes rtot ctot fuel d = Converged m ->
  row_sums m = map Z.of_nat rtot /\ col_sums (length ctot) m = map Z.of_nat ctot.
Proof.
  revert d; induction fuel as [|f IH]; intros d H; simpl in H; [discriminate|].
  destruct (marginals_ok rtot ctot (rounded votes (adjust votes rtot ctot d)))
    eqn:E.
  - injection H as <-. apply marginals_ok_true. auto.
  - eapply IH. eauto.
Qed.

(** The loop fails exactly when none of its [fuel] adjustments meets both
    marginals. *)
Lemma bp_loop_not_converged votes rtot ctot fuel d :
  bp_loop votes rtot ctot fuel d = NotConverged <->
  forall k, 1 <= k <= fuel ->
    marginals_ok rtot ctot
      (rounded votes (Nat.iter k (adjust votes rtot ctot) d)) = false.
Proof.
  revert d; induction fuel as [|f IH]; intros d; simpl.
  - split; auto. intros _ k Hk. lia.
  - destruct (marginals_ok rtot ctot (rounded votes (adjust votes rtot ctot d)))
      eqn:E.
    + split; [discriminate|]. intros H. specialize (H 1 ltac:(lia)).
      simpl in H. congruence.
    + rewrite IH. split.
      * intros H [|k] Hk; [lia|]. destruct k as [|k]; [simpl; auto|].
        rewrite Nat.iter_succ_r. apply H. lia.
      * intros H k Hk. specialize (H (S k) ltac:(lia)).
        rewrite Nat.iter_succ_r in H. auto.
Qed.

End BPFacts.

Module CondorcetFacts.
Import Condorcet.

Section Lists.
Context {A : Type}.

Lemma filter_only (P : A -> bool) (l : list A) (c : A) :
  List.NoDup l -> In c l -> P c = true ->
  (forall y, In y l -> y <> c -> P y = false) ->
  List.filter P l = [c].
Proof.
  induction l as [|x l IH]; intros Hnd Hc HPc Hy; [contradiction|].
  inversion Hnd as [|x' l' Hx Hnd']; subst. simpl.
  destruct Hc as [<-|Hc].
  - rewrite HPc. f_equal.
    assert (forall y, In y l -> P y = false) as Hf.
    { intros y Hin. apply Hy; [right; auto|]. intros ->. contradiction. }
    clear -Hf. induction l as [|z l IHl]; simpl; auto.
    rewrite Hf by (left; auto). apply IHl. intros y Hin. apply Hf. right; auto.
  - assert (x <> c) as Hxc by (intros ->; contradiction).
    rewrite (Hy x) by (auto; left; auto).
    apply IH; auto. intros y Hin Hyc. apply Hy; auto. right; auto.
Qed.

Lemma length_filter_le (P : A -> bool) (l s : list A) :
  List.NoDup l -> incl (List.filter P l) s -> length (List.filter P l) <= length s.
Proof.
  intros Hnd Hincl. apply List.NoDup_incl_length; auto. apply List.NoDup_filter. auto.
Qed.

Lemma length_filter_ge (P : A -> bool) (l s : list A) :
  List.NoDup s -> incl s (List.filter P l) -> length s <= length (List.filter P l).
Proof. intros Hnd Hincl. apply List.NoDup_incl_length; auto. Qed.

Lemma length_filter_compl (P : A -> bool) (l : list A) :
  length (List.filter P l) + length (List.filter (fun x => negb (P x)) l)
  = length l.
Proof. induction l as [|x l IH]; simpl; auto. destruct (P x); simpl; lia. Qed.

(** A maximum of a score over a non-empty list. *)
Lemma exists_max_score (f : A -> Z) (l : list A) :
  l <> [] -> exists r, In r l /\ forall r', In r' l -> (f r' <= f r)%Z.
Proof.
  induction l as [|x l IH]; intros H; [congruence|].
  destruct l as [|y l].
  - exists x. split; [left; auto|]. intros r' [<-|[]]. lia.
  - destruct IH as [r [Hr Hmax]]; [discriminate|].
    destruct (Z.le_gt_cases (f x) (f r)).
    + exists r. split; [right; auto|]. intros r' [<-|Hr']; auto.
    + exists x. split; [left; auto|]. intros r' [<-|Hr']; [lia|].
      specialize (Hmax r' Hr'). lia.
Qed.

End Lists.

Section Winner.
Context {C : Type} `{EqDecision C}.
Variable m : C -> C -> Z.
Variable cands : list C.
Variable c : C.
Hypothesis Hnd : NoDup cands.
Hypothesis Hcw : condorcet_winner m cands c.

Lemma nd : List.NoDup cands.
Proof. apply NoDup_ListNoDup. auto. Qed.

Lemma c_in : In c cands.
Proof. apply list_elem_of_In. apply Hcw. Qed.

Lemma c_beats y : In y cands -> y <> c -> beats m c y = true.
Proof. intros Hy Hyc. apply Hcw; auto. apply list_elem_of_In. auto. Qed.

Lemma beats_irrefl x : beats m x x = false.
Proof. unfold beats. apply Z.ltb_irrefl. Qed.

Lemma not_beats_c x : In x cands -> beats m x c = false.
Proof.
  intros Hx. destruct (decide (x = c)) as [->|Hxc]; [apply beats_irrefl|].
  pose proof (c_beats x Hx Hxc) as Hb. unfold beats in *.
  apply Z.ltb_lt in Hb. apply Z.ltb_ge. lia.
Qed.

Lemma margin_pos y : In y cands -> y <> c -> (m y c < m c y)%Z.
Proof. intros Hy Hyc. pose proof (c_beats y Hy Hyc). unfold beats in *. lia. Qed.

Lemma maximal_unique (score : C -> Z) :
  (forall y, In y cands -> y <> c -> (score y < score c)%Z) ->
  maximal_by cands score = [c].
Proof.
  intros Hs. unfold maximal_by. apply filter_only; auto using nd, c_in.
  - apply forallb_forall. intros x Hx.
    destruct (decide (x = c)) as [->|Hxc]; [apply Z.leb_refl|].
    apply Z.leb_le. specialize (Hs x Hx Hxc). lia.
  - intros y Hy Hyc. apply not_true_iff_false. intros Hf.
    rewrite forallb_forall in Hf. specialize (Hf c c_in).
    apply Z.leb_le in Hf. specialize (Hs y Hy Hyc). lia.
Qed.

Lemma copeland_winner : copeland m cands = Winner c.
Proof.
  unfold copeland. rewrite maximal_unique; [reflexivity|].
  intros y Hy Hyc. unfold copeland_score.
  pose proof (length_filter_compl (fun x => beats m c x) cands) as Hc1.
  pose proof (length_filter_compl (fun x => beats m y x) cands) as Hy1.
  assert (length (List.filter (fun x => negb (beats m c x)) cands) <= 1).
  { apply (length_filter_le _ _ [c]); [apply nd|]. intros x Hx.
    apply filter_In in Hx as [Hx Hb]. destruct (decide (x = c)) as [->|Hxc];
      [left; auto|]. rewrite c_beats in Hb; auto. discriminate. }
  assert (length (List.filter (fun x => beats m x c) cands) <= 0).
  { apply (length_filter_le _ _ []); [apply nd|]. intros x Hx.
    apply filter_In in Hx as [Hx Hb]. rewrite not_beats_c in Hb; auto.
    discriminate. }
  assert (2 <= length (List.filter (fun x => negb (beats m y x)) cands)).
  { apply (length_filter_ge _ _ [y; c]).
    - constructor; [simpl; intros [->|[]]; auto|]. constructor; [simpl; tauto|constructor].
    - intros x [<-|[<-|[]]]; apply filter_In; split; auto using c_in.
      + rewrite beats_irrefl. auto.
      + rewrite not_beats_c; auto. }
  assert (1 <= length (List.filter (fun x => beats m x y) cands)).
  { apply (length_filter_ge _ _ [c]); [constructor; [simpl; tauto|constructor]|].
    intros x [<-|[]]. apply filter_In. split; auto using c_in, c_beats. }
  lia.
Qed.

Lemma foldr_max_ge (l : list Z) x : In x l -> (x <= foldr Z.max 0%Z l)%Z.
Proof.
  induction l as [|y l IH]; simpl; [contradiction|]. intros [<-|H]; [lia|].
  specialize (IH H). lia.
Qed.

Lemma foldr_max_nonpos (l : list Z) :
  (forall x, In x l -> (x <= 0)%Z) -> foldr Z.max 0%Z l = 0%Z.
Proof.
  induction l as [|y l IH]; simpl; auto. intros H.
  rewrite IH by auto. specialize (H y (or_introl eq_refl)). lia.
Qed.

Lemma foldr_fun_max (f : C -> Z) (l : list C) :
  foldr (fun x acc => Z.max (f x) acc) 0%Z l = foldr Z.max 0%Z (map f l).
Proof. induction l as [|x l IH]; simpl; auto. rewrite IH. auto. Qed.

Lemma worst_defeat_c : worst_defeat m cands c = 0%Z.
Proof.
  unfold worst_defeat. rewrite foldr_fun_max. apply foldr_max_nonpos.
  intros z Hz. apply in_map_iff in Hz as [x [<- Hx]].
  apply filter_In in Hx as [Hx Hxc]. apply bool_decide_eq_true in Hxc.
  pose proof (margin_pos x Hx Hxc). lia.
Qed.

Lemma worst_defeat_other y : In y cands -> y <> c -> (0 < worst_defeat m cands y)%Z.
Proof.
  intros Hy Hyc. unfold worst_defeat. rewrite foldr_fun_max.
  eapply Z.lt_le_trans; [|apply foldr_max_ge, in_map_iff; exists c; split; [reflexivity|]].
  - pose proof (margin_pos y Hy Hyc). lia.
  - apply filter_In. split; [apply c_in|]. apply bool_decide_eq_true. auto.
Qed.

Lemma minimax_winner : minimax m cands = Winner c.
Proof.
  unfold minimax. rewrite maximal_unique; [reflexivity|].
  intros y Hy Hyc. rewrite worst_defeat_c. pose proof (worst_defeat_other y Hy Hyc).
  lia.
Qed.

Definition schulze_inv (p : C -> C -> Z) : Prop :=
  (forall x, In x cands -> x <> c -> (p x c <= 0)%Z) /\
  (forall y, In y cands -> y <> c -> (m c y <= p c y)%Z).

Lemma relax_mono (p : C -> C -> Z) (k i j : C) : (p i j <= relax p k i j)%Z.
Proof. unfold relax. case_bool_decide; lia. Qed.

Lemma schulze_inv_relax p k :
  In k cands -> schulze_inv p -> schulze_inv (relax p k).
Proof.
  intros Hk [H1 H2]. split.
  - intros x Hx Hxc. unfold relax. case_bool_decide; [auto|].
    assert (k <> c) by (intros ->; tauto).
    pose proof (H1 x Hx Hxc). pose proof (H1 k Hk ltac:(auto)). lia.
  - intros y Hy Hyc. specialize (H2 y Hy Hyc). pose proof (relax_mono p k c y).
    lia.
Qed.

Lemma schulze_inv_paths : schulze_inv (strongest_paths m cands).
Proof.
  unfold strongest_paths.
  assert (Hinit : schulze_inv (link m)).
  { split.
    - intros x Hx Hxc. unfold link. rewrite not_beats_c; auto. lia.
    - intros y Hy Hyc. unfold link. rewrite c_beats; auto. lia. }
  assert (forall l p, incl l cands -> schulze_inv p -> schulze_inv (foldl relax p l))
    as Hgen.
  { induction l as [|k l IH]; intros p Hl Hp; simpl; auto.
    apply IH; [intros x Hx; apply Hl; right; auto|].
    apply schulze_inv_relax; auto. apply Hl. left; auto. }
  apply Hgen; auto. intros x Hx. auto.
Qed.

Section NonNegative.
Hypothesis Hnonneg : forall a b, (0 <= m a b)%Z.

Lemma schulze_winner : schulze m cands = Winner c.
Proof.
  unfold schulze. destruct schulze_inv_paths as [H1 H2].
  set (p := strongest_paths m cands) in *.
  rewrite (filter_only _ _ c); auto using nd, c_in.
  - apply forallb_forall. intros x Hx. apply Z.leb_le.
    destruct (decide (x = c)) as [->|Hxc]; [lia|].
    specialize (H1 x Hx Hxc). specialize (H2 x Hx Hxc).
    pose proof (margin_pos x Hx Hxc). pose proof (Hnonneg x c). lia.
  - intros y Hy Hyc. apply not_true_iff_false. intros Hf.
    rewrite forallb_forall in Hf. specialize (Hf c c_in). apply Z.leb_le in Hf.
    specialize (H1 y Hy Hyc). specialize (H2 y Hy Hyc).
    pose proof (margin_pos y Hy Hyc). pose proof (Hnonneg y c). lia.
Qed.

End NonNegative.

Lemma in_insert_by_margin e l x :
  In x (insert_by_margin m e l) <-> e = x \/ In x l.
Proof.
  induction l as [|e' l IH]; simpl; [tauto|].
  destruct (margin m e' <? margin m e)%Z; simpl; [tauto|]. rewrite IH. tauto.
Qed.

Lemma in_sorted_victories e :
  In e (sorted_victories m cands) <->
  In e.1 cands /\ In e.2 cands /\ beats m e.1 e.2 = true.
Proof.
  unfold sorted_victories.
  assert (forall l, In e (foldr (insert_by_margin m) [] l) <-> In e l) as ->.
  { induction l as [|x l IH]; simpl; [tauto|]. rewrite in_insert_by_margin, IH.
    intuition. }
  rewrite <- in_rev. unfold victories. rewrite filter_In.
  destruct e as [a b]. rewrite in_prod_iff. simpl. tauto.
Qed.

Definition no_edge_into_c (g : list (C * C)) : Prop :=
  forall e, In e g -> e.2 <> c.

Lemma reaches_into_c g fuel a :
  no_edge_into_c g -> reaches g fuel a c = true -> a = c.
Proof.
  intros Hg. revert a; induction fuel as [|f IH]; intros a H; simpl in H.
  - apply orb_true_iff in H as [H|H]; [apply bool_decide_eq_true in H; auto|].
    discriminate.
  - apply orb_true_iff in H as [H|H]; [apply bool_decide_eq_true in H; auto|].
    apply existsb_exists in H as [e [He Hr]].
    apply andb_true_iff in Hr as [_ Hr]. apply IH in Hr. exfalso.
    apply (Hg e He). auto.
Qed.

Lemma lock_fold l g :
  no_edge_into_c g -> no_edge_into_c l ->
  no_edge_into_c (foldl (lock cands) g l) /\
  incl g (foldl (lock cands) g l) /\
  (forall y, In (c, y) l -> y <> c -> In (c, y) (foldl (lock cands) g l)).
Proof.
  revert g; induction l as [|e l IH]; intros g Hg Hl; simpl.
  - split; [auto|]. split; [intros x; auto|]. intros y [].
  - assert (Hlock : no_edge_into_c (lock cands g e) /\ incl g (lock cands g e)).
    { unfold lock. destruct (reaches g (length cands) e.2 e.1).
      - split; [auto|intros x; auto].
      - split; [|intros x Hx; apply in_or_app; auto].
        intros x Hx. apply in_app_or in Hx as [Hx|[<-|[]]]; [auto|].
        apply Hl. left; auto. }
    destruct Hlock as [Hg' Hincl].
    destruct (IH (lock cands g e) Hg') as [H1 [H2 H3]].
    { intros x Hx. apply Hl. right; auto. }
    split; [auto|]. split; [intros x Hx; apply H2, Hincl; auto|].
    intros y [Hy|Hy] Hyc; [|auto].
    subst e. apply H2. unfold lock. simpl.
    destruct (reaches g (length cands) y c) eqn:E.
    + apply reaches_into_c in E; [contradiction|auto].
    + apply in_or_app. right. left. auto.
Qed.

Lemma ranked_pairs_winner : ranked_pairs m cands = Winner c.
Proof.
  unfold ranked_pairs, locked.
  assert (Hsv : no_edge_into_c (sorted_victories m cands)).
  { intros e He Hec. apply in_sorted_victories in He as [He1 [_ Hb]].
    rewrite Hec, not_beats_c in Hb; auto. discriminate. }
  destruct (lock_fold (sorted_victories m cands) [] ltac:(intros e [])
              Hsv) as [H1 [_ H3]].
  rewrite (filter_only _ _ c); auto using nd, c_in.
  - apply negb_true_iff. apply not_true_iff_false. intros Hex.
    apply existsb_exists in Hex as [e [He Hec]]. apply bool_decide_eq_true in Hec.
    apply (H1 e He Hec).
  - intros y Hy Hyc. apply negb_false_iff. apply existsb_exists.
    exists (c, y). split; [|apply bool_decide_eq_true; auto].
    apply H3; auto. apply in_sorted_victories. simpl.
    split; [apply c_in|]. split; auto using c_beats.
Qed.

Definition rowsum (a : C) (l : list C) : Z :=
  foldr (fun b acc => m a b + acc)%Z 0%Z l.

Lemma rowsum_swap a l1 y z l2 :
  rowsum a (l1 ++ y :: z :: l2) = rowsum a (l1 ++ z :: y :: l2).
Proof.
  unfold rowsum. induction l1 as [|x l1 IH]; simpl; [lia|]. rewrite IH. auto.
Qed.

(** Swapping two adjacent candidates changes the Kemeny score by their
    pairwise margin. *)
Lemma kemeny_swap l1 y z l2 :
  kemeny_score m (l1 ++ z :: y :: l2) =
  (kemeny_score m (l1 ++ y :: z :: l2) + m z y - m y z)%Z.
Proof.
  induction l1 as [|x l1 IH]; simpl.
  - fold (rowsum z l2) (rowsum y l2). lia.
  - fold (rowsum x (l1 ++ z :: y :: l2)) (rowsum x (l1 ++ y :: z :: l2)).
    rewrite IH, rowsum_swap. lia.
Qed.

Lemma split_before (r : list C) :
  In c r -> head r <> Some c -> exists l1 y l2, r = l1 ++ y :: c :: l2.
Proof.
  induction r as [|a r IH]; simpl; intros Hin Hh; [contradiction|].
  destruct Hin as [->|Hin]; [congruence|].
  destruct r as [|b r]; [contradiction|].
  destruct (decide (b = c)) as [->|Hbc].
  - exists [], a, r. auto.
  - destruct IH as [l1 [y [l2 ->]]]; [auto|simpl; congruence|].
    exists (a :: l1), y, l2. auto.
Qed.

Lemma optimal_head r :
  In r (optimal_rankings m cands) -> head r = Some c.
Proof.
  intros Hr. unfold optimal_rankings in Hr. apply filter_In in Hr as [Hperm Hopt].
  apply list_elem_of_In, permutations_Permutation in Hperm.
  destruct (decide (head r = Some c)) as [|Hh]; [auto|exfalso].
  assert (Hc : In c r).
  { apply list_elem_of_In. rewrite <- Hperm. apply list_elem_of_In, c_in. }
  destruct (split_before r Hc Hh) as [l1 [y [l2 ->]]].
  assert (Hndr : NoDup (l1 ++ y :: c :: l2)) by (rewrite <- Hperm; auto).
  apply NoDup_app in Hndr as [_ [_ Hndr]].
  apply NoDup_cons in Hndr as [Hyc _].
  assert (y <> c) as Hyc'.
  { intros ->. apply Hyc. apply list_elem_of_here. }
  assert (Hy : In y cands).
  { apply list_elem_of_In. rewrite Hperm. apply list_elem_of_In.
    apply in_or_app. right. left. auto. }
  assert (Hperm' : cands ≡ₚ l1 ++ c :: y :: l2).
  { rewrite Hperm. apply Permutation_app_head. apply perm_swap. }
  rewrite forallb_forall in Hopt.
  specialize (Hopt (l1 ++ c :: y :: l2)
                (proj1 (list_elem_of_In _ _)
                   (proj2 (permutations_Permutation _ _) Hperm'))).
  apply Z.leb_le in Hopt. rewrite kemeny_swap in Hopt.
  pose proof (margin_pos y Hy Hyc'). lia.
Qed.

Lemma kemeny_young_winner : kemeny_young m cands = Winner c.
Proof.
  unfold kemeny_young.
  destruct (exists_max_score (kemeny_score m) (permutations cands)) as [r [Hr Hmax]].
  { intros Hnil. pose proof (permutations_refl cands) as Hrefl.
    rewrite Hnil in Hrefl. apply list_elem_of_In in Hrefl. auto. }
  assert (Hro : In r (optimal_rankings m cands)).
  { unfold optimal_rankings. apply filter_In. split; auto.
    apply forallb_forall. intros r' Hr'. apply Z.leb_le. auto. }
  rewrite (filter_only _ _ c); auto using nd, c_in.
  - apply existsb_exists. exists r. split; auto.
    apply bool_decide_eq_true. apply optimal_head. auto.
  - intros y Hy Hyc. apply not_true_iff_false. intros Hex.
    apply existsb_exists in Hex as [r' [Hr' Hh]]. apply bool_decide_eq_true in Hh.
    rewrite optimal_head in Hh by auto. congruence.
Qed.

End Winner.

Lemma pairwise_nonneg {C : Type} `{EqDecision C} (votes : list (list C * Z)) a b :
  Forall (fun v => (0 <= v.2)%Z) votes -> (0 <= pairwise votes a b)%Z.
Proof.
  intros H. unfold pairwise. induction votes as [|v votes IH]; simpl; [lia|].
  apply Forall_cons in H as [Hv H]. specialize (IH H).
  destruct (prefers v.1 a b); lia.
Qed.

End CondorcetFacts.

Module RegionalVotesFacts.
Import RegionalVotes.

Lemma init_votes_lookup_gen (names : list string) (m : gmap string (gmap string Z)) r :
  fold_left (fun votes region => <[region := ∅]> votes) names m !! r
  = if decide (r ∈ names) then Some ∅ else m !! r.
Proof.
  revert m. induction names as [|x names IH]; intros m; simpl.
  - destruct (decide (r ∈ [])) as [Hr|]; [inversion Hr|reflexivity].
  - rewrite IH, lookup_insert.
    destruct (decide (r ∈ names)) as [H1|H1];
      destruct (decide (r ∈ x :: names)) as [H2|H2];
      destruct (decide (x = r)) as [H3|H3]; try reflexivity; set_solver.
Qed.

Lemma init_votes_lookup names r :
  init_votes names !! r = if decide (r ∈ names) then Some ∅ else None.
Proof. unfold init_votes. rewrite init_votes_lookup_gen. reflexivity. Qed.

Section WithInt.
Variable int : string -> option Z.

Lemma store_cells_keys p cs v v' :
  store_cells int p cs v = inr v' -> forall r, is_Some (v' !! r) <-> is_Some (v !! r).
Proof.
  revert v. induction cs as [|[reg c] cs IH]; intros v H r; simpl in H.
  - injection H as <-. tauto.
  - destruct (int c); [|discriminate].
    destruct (v !! reg) as [d|] eqn:Hd; [|discriminate].
    rewrite (IH _ H r), lookup_insert_is_Some'.
    split; [intros [<-|?]; [eauto|auto]|auto].
Qed.

Lemma store_cells_no_key_error p cs v :
  (forall x, x ∈ cs -> is_Some (v !! x.1)) -> store_cells int p cs v <> inl KeyError.
Proof.
  revert v. induction cs as [|[reg c] cs IH]; intros v Hk; simpl; [discriminate|].
  destruct (int c); [|discriminate].
  destruct (Hk (reg, c) ltac:(set_solver)) as [d Hd]. simpl in Hd. rewrite Hd.
  apply IH. intros x Hx. rewrite lookup_insert_is_Some'. right. apply Hk. set_solver.
Qed.

Lemma store_cells_ok p cs v :
  (forall x, x ∈ cs -> is_Some (v !! x.1)) ->
  (exists v', store_cells int p cs v = inr v') <-> (forall x, x ∈ cs -> is_Some (int x.2)).
Proof.
  revert v. induction cs as [|[reg c] cs IH]; intros v Hk; simpl.
  - split; [set_solver|eauto].
  - destruct (int c) as [n|] eqn:Hc.
    + destruct (Hk (reg, c) ltac:(set_solver)) as [d Hd]. simpl in Hd. rewrite Hd.
      rewrite IH.
      * split.
        -- intros Hall x Hx. apply elem_of_cons in Hx as [->|Hx]; [simpl; rewrite Hc; eauto|auto].
        -- intros Hall x Hx. apply Hall. set_solver.
      * intros x Hx. rewrite lookup_insert_is_Some'. right. apply Hk. set_solver.
    + split; [intros [? [=]]|].
      intros Hall. destruct (Hall (reg, c) ltac:(set_solver)) as [? Hs]. simpl in Hs. congruence.
Qed.

Lemma store_cells_preserve p cs v v' q r :
  store_cells int p cs v = inr v' -> (q <> p \/ r ∉ cs.*1) ->
  v' !! r ≫= (fun d => d !! q) = v !! r ≫= (fun d => d !! q).
Proof.
  revert v. induction cs as [|[reg c] cs IH]; intros v H Hqr; simpl in H.
  - injection H as <-. reflexivity.
  - destruct (int c) as [n|]; [|discriminate].
    destruct (v !! reg) as [d|] eqn:Hd; [|discriminate].
    rewrite (IH _ H); [|simpl in Hqr; set_solver].
    destruct (decide (reg = r)) as [<-|Hne].
    + rewrite lookup_insert_eq, Hd. simpl.
      destruct Hqr as [Hq|Hr]; [rewrite lookup_insert_ne; auto|simpl in Hr; set_solver].
    + rewrite lookup_insert_ne; auto.
Qed.

Lemma store_cells_app p cs1 cs2 v :
  store_cells int p (cs1 ++ cs2) v =
  match store_cells int p cs1 v with
  | inl e => inl e
  | inr v1 => store_cells int p cs2 v1
  end.
Proof.
  revert v. induction cs1 as [|[reg c] cs1 IH]; intros v; simpl; [reflexivity|].
  destruct (int c); [|reflexivity]. destruct (v !! reg); [|reflexivity]. apply IH.
Qed.

Lemma store_cells_write p r c n cs v v' :
  store_cells int p ((r, c) :: cs) v = inr v' -> int c = Some n -> r ∉ cs.*1 ->
  v' !! r ≫= (fun d => d !! p) = Some n.
Proof.
  intros H Hc Hr. simpl in H. rewrite Hc in H.
  destruct (v !! r) as [d|]; [|discriminate].
  rewrite (store_cells_preserve _ _ _ _ p r H (or_intror Hr)).
  rewrite lookup_insert_eq. simpl. apply lookup_insert_eq.
Qed.

Lemma elem_of_zip_fst (l : list string) (k : list string) x :
  x ∈ zip l k -> x.1 ∈ l.
Proof.
  revert k. induction l as [|a l IH]; intros [|b k] Hx; simpl in *; set_solver.
Qed.

Lemma zip_snd_take (l : list string) (k : list string) (P : string -> Prop) :
  (forall x, x ∈ zip l k -> P x.2) <-> (forall c, c ∈ take (length l) k -> P c).
Proof.
  revert k. induction l as [|a l IH]; intros [|b k]; simpl; set_solver.
Qed.

Lemma store_rows_keys names rows v v' :
  store_rows int names rows v = inr v' -> forall r, is_Some (v' !! r) <-> is_Some (v !! r).
Proof.
  revert v. induction rows as [|[|p cells] rows IH]; intros v H r; simpl in H.
  - injection H as <-. tauto.
  - discriminate.
  - destruct (store_cells int p (zip names cells) v) as [e|v1] eqn:Hs; [discriminate|].
    rewrite (IH _ H r). exact (store_cells_keys _ _ _ _ Hs r).
Qed.

Lemma store_rows_no_key_error names rows v :
  (forall r, r ∈ names -> is_Some (v !! r)) -> store_rows int names rows v <> inl KeyError.
Proof.
  revert v. induction rows as [|[|p cells] rows IH]; intros v Hk; simpl; try discriminate.
  destruct (store_cells int p (zip names cells) v) as [e|v1] eqn:Hs.
  - intros [= ->]. revert Hs. apply store_cells_no_key_error.
    intros x Hx. apply Hk. eapply elem_of_zip_fst; eauto.
  - apply IH. intros r Hr. apply (store_cells_keys _ _ _ _ Hs). auto.
Qed.

Lemma store_rows_ok names rows v :
  (forall r, r ∈ names -> is_Some (v !! r)) ->
  (exists v', store_rows int names rows v = inr v') <->
  (forall row, row ∈ rows -> exists party cells, row = party :: cells /\
     forall c, c ∈ take (length names) cells -> is_Some (int c)).
Proof.
  revert v. induction rows as [|row rows IH]; intros v Hk; simpl.
  - split; [set_solver|eauto].
  - destruct row as [|p cells].
    + split; [intros [? [=]]|]. intros H. destruct (H [] ltac:(set_solver)) as (? & ? & [=] & _).
    + assert (Hk' : forall x, x ∈ zip names cells -> is_Some (v !! x.1)).
      { intros x Hx. apply Hk. eapply elem_of_zip_fst; eauto. }
      pose proof (store_cells_ok p _ _ Hk') as Hok.
      destruct (store_cells int p (zip names cells) v) as [e|v1] eqn:Hs.
      * split; [intros [? [=]]|]. intros H.
        destruct (H (p :: cells) ltac:(set_solver)) as (p' & cells' & [= <- <-] & Hc).
        destruct (proj2 Hok (proj2 (zip_snd_take names cells (fun c => is_Some (int c))) Hc))
          as [? [=]].
      * rewrite IH.
        2:{ intros r Hr. apply (store_cells_keys _ _ _ _ Hs). auto. }
        split.
        -- intros H row Hrow. apply elem_of_cons in Hrow as [->|Hrow]; [|auto].
           exists p, cells. split; [reflexivity|].
           apply (zip_snd_take names cells (fun c => is_Some (int c))). apply Hok. eauto.
        -- intros H row Hrow. apply H. set_solver.
Qed.

Lemma store_rows_app names rows1 rows2 v :
  store_rows int names (rows1 ++ rows2) v =
  match store_rows int names rows1 v with
  | inl e => inl e
  | inr v1 => store_rows int names rows2 v1
  end.
Proof.
  revert v. induction rows1 as [|[|p cells] rows1 IH]; intros v; simpl; try reflexivity.
  destruct (store_cells int p (zip names cells) v); [reflexivity|]. apply IH.
Qed.

Lemma store_rows_preserve names rows v v' q r :
  store_rows int names rows v = inr v' ->
  (forall cells, (q :: cells) ∈ rows -> r ∉ (zip names cells).*1) ->
  v' !! r ≫= (fun d => d !! q) = v !! r ≫= (fun d => d !! q).
Proof.
  revert v. induction rows as [|[|p cells] rows IH]; intros v H Hr; simpl in H.
  - injection H as <-. reflexivity.
  - discriminate.
  - destruct (store_cells int p (zip names cells) v) as [e|v1] eqn:Hs; [discriminate|].
    rewrite (IH _ H); [|intros cs Hcs; apply Hr; set_solver].
    apply (store_cells_preserve _ _ _ _ _ _ Hs).
    destruct (decide (q = p)) as [->|Hne]; [right; apply Hr; set_solver|left; auto].
Qed.

Lemma store_rows_parsed names rows v e :
  (forall r, r ∈ names -> is_Some (v !! r)) ->
  (forall party cells, (party :: cells) ∈ rows ->
     forall c, c ∈ take (length names) cells -> is_Some (int c)) ->
  store_rows int names rows v = inl e -> e = IndexError /\ [] ∈ rows.
Proof.
  revert v. induction rows as [|[|p cells] rows IH]; intros v Hk Hp H; simpl in H.
  - discriminate.
  - injection H as <-. split; [reflexivity|left].
  - assert (Hk' : forall x, x ∈ zip names cells -> is_Some (v !! x.1)).
    { intros x Hx. apply Hk. eapply elem_of_zip_fst; eauto. }
    destruct (store_cells int p (zip names cells) v) as [e'|v1] eqn:Hs.
    + destruct (proj2 (store_cells_ok p _ _ Hk')) as [v' Hv'].
      * apply (zip_snd_take names cells (fun c => is_Some (int c))).
        apply Hp with p. left.
      * congruence.
    + destruct (IH v1) as [He Hin]; auto.
      * intros r Hr. apply (store_cells_keys _ _ _ _ Hs). auto.
      * intros q cs Hq. apply (Hp q cs). right. exact Hq.
      * split; [exact He|right; exact Hin].
Qed.

(** A column index beyond the last one named [r] does not hold [r]. *)
Lemma zip_fst_drop_not_in (names cells : list string) j r :
  (forall k, j < k -> k < length cells -> names !! k <> Some r) ->
  r ∉ (drop (S j) (zip names cells)).*1.
Proof.
  intros Hlast Hin. apply list_elem_of_fmap in Hin as [[a b] [-> Hx]].
  apply list_elem_of_lookup in Hx as [i Hi]. rewrite lookup_drop in Hi.
  apply lookup_zip_with_Some in Hi as (a' & b' & [= <- <-] & Ha & Hb).
  apply (Hlast (S j + i)); [lia| |exact Ha]. apply lookup_lt_Some in Hb. exact Hb.
Qed.

Lemma zip_fst_not_in (names cells : list string) r :
  (forall j, names !! j = Some r -> length cells <= j) -> r ∉ (zip names cells).*1.
Proof.
  intros Hshort Hin. apply list_elem_of_fmap in Hin as [[a b] [-> Hx]].
  apply list_elem_of_lookup in Hx as [i Hi].
  apply lookup_zip_with_Some in Hi as (a' & b' & [= <- <-] & Ha & Hb).
  apply lookup_lt_Some in Hb. specialize (Hshort i Ha). lia.
Qed.

End WithInt.
End RegionalVotesFacts.

Module PartyListsFacts.
Import PartyLists.

Section WithInt.
Variable int : string -> option Z.

Lemma load_rows_ok rows objs lists :
  (exists s, load_rows int rows objs lists = inr s) <->
  (forall row, row ∈ rows -> exists p nm c, row = [p; nm; c] /\ is_Some (int c)).
Proof.
  revert objs lists. induction rows as [|row rows IH]; intros objs lists; simpl.
  - split; [set_solver|eauto].
  - destruct row as [|p [|nm [|c [|x row]]]];
      try solve [split; [intros [? [=]]|intros H; destruct (H _ (list_elem_of_here _ _)) as (? & ? & ? & [=] & _)]].
    destruct (setdefault objs p p) as [o objs'].
    destruct (int c) as [n|] eqn:Hc.
    + destruct (setdefault lists o []) as [l lists']. rewrite IH. split.
      * intros H r Hr. apply elem_of_cons in Hr as [->|Hr]; [|auto].
        exists p, nm, c. rewrite Hc. eauto.
      * intros H r Hr. apply H. set_solver.
    + split; [intros [? [=]]|]. intros H.
      destruct (H [p; nm; c] ltac:(set_solver)) as (? & ? & ? & [= <- <- <-] & Hs).
      rewrite Hc in Hs. destruct Hs as [? [=]].
Qed.

(** The only exception the loop raises is [ValueError]. *)
Lemma load_rows_error rows objs lists e :
  load_rows int rows objs lists = inl e -> e = ValueError.
Proof.
  revert objs lists. induction rows as [|row rows IH]; intros objs lists; simpl.
  - intros [=].
  - destruct row as [|p [|nm [|c [|x row]]]]; try solve [intros [=]; auto].
    destruct (setdefault objs p p) as [o objs'].
    destruct (int c) as [n|]; [|intros [=]; auto].
    destruct (setdefault lists o []) as [l lists']. apply IH.
Qed.

(** The loop keeps every party mapped to its own party object, and the
    parties with a list are those with a party object. *)
Definition lists_inv (objs : gmap string string) (lists : gmap string (list person)) : Prop :=
  (forall q o, objs !! q = Some o -> o = q) /\
  (forall q, is_Some (lists !! q) <-> is_Some (objs !! q)).

Lemma load_rows_lists rows objs lists objs' lists' p :
  lists_inv objs lists ->
  load_rows int rows objs lists = inr (objs', lists') ->
  lists_inv objs' lists' /\
  default [] (lists' !! p) = default [] (lists !! p) ++ omap (row_person p) rows /\
  (is_Some (objs' !! p) <-> is_Some (objs !! p) \/ exists nm c, [p; nm; c] ∈ rows).
Proof.
  revert objs lists. induction rows as [|row rows IH]; intros objs lists Hinv H; simpl in H.
  - injection H as <- <-. simpl. rewrite app_nil_r. split; [auto|split; [reflexivity|]].
    split; [auto|intros [?|(? & ? & Hin)]; [auto|inversion Hin]].
  - destruct row as [|q [|nm [|c [|x row]]]]; try discriminate.
    destruct Hinv as [Hobj Hkeys].
    unfold setdefault in H at 1.
    destruct (objs !! q) as [o|] eqn:Ho.
    + pose proof (Hobj q o Ho) as ->.
      destruct (int c) as [n|]; [|discriminate].
      assert (Hl : is_Some (lists !! q)) by (apply Hkeys; eauto).
      destruct Hl as [l Hl]. unfold setdefault in H. rewrite Hl in H.
      assert (Hinv1 : lists_inv objs (<[q:=l ++ [Person nm q]]> lists)).
      { split; [exact Hobj|]. intros r. rewrite lookup_insert_is_Some', <- Hkeys.
        split; [intros [<-|?]; eauto|auto]. }
      destruct (IH _ _ Hinv1 H) as (Hinv' & Hlist & Hobjs).
      split; [exact Hinv'|split].
      * rewrite Hlist. simpl. destruct (decide (q = p)) as [<-|Hne].
        -- rewrite lookup_insert_eq, Hl. simpl. rewrite <- app_assoc. reflexivity.
        -- rewrite lookup_insert_ne by auto. reflexivity.
      * rewrite Hobjs. split.
        -- intros [?|(nm' & c' & Hin)]; [auto|right; exists nm', c'; set_solver].
        -- intros [?|(nm' & c' & Hin)]; [auto|].
           apply elem_of_cons in Hin as [[= -> _ _]|Hin]; [left; eauto|right; eauto].
    + destruct (int c) as [n|]; [|discriminate].
      assert (Hl : lists !! q = None).
      { destruct (lists !! q) eqn:E; [|reflexivity].
        destruct (proj1 (Hkeys q) ltac:(rewrite E; eauto)) as [? Hq]. congruence. }
      unfold setdefault in H. rewrite Hl in H.
      assert (Hinv1 : lists_inv (<[q:=q]> objs) (<[q:=[] ++ [Person nm q]]> (<[q:=[]]> lists))).
      { split.
        - intros r o. rewrite lookup_insert_Some. intros [[-> <-]|[_ Hr]]; eauto.
        - intros r. rewrite !lookup_insert_is_Some', Hkeys. tauto. }
      destruct (IH _ _ Hinv1 H) as (Hinv' & Hlist & Hobjs).
      split; [exact Hinv'|split].
      * rewrite Hlist. simpl. destruct (decide (q = p)) as [<-|Hne].
        -- rewrite !lookup_insert_eq, Hl. reflexivity.
        -- rewrite !lookup_insert_ne by auto. reflexivity.
      * rewrite Hobjs, lookup_insert_is_Some'. split.
        -- intros [[<-|?]|(nm' & c' & Hin)]; [right; exists nm, c; set_solver|auto|].
           right; exists nm', c'; set_solver.
        -- intros [?|(nm' & c' & Hin)]; [auto|].
           apply elem_of_cons in Hin as [[= -> _ _]|Hin]; [left; left; auto|right; eauto].
Qed.

End WithInt.

(** Party [p] has a row exactly when its list of persons is not empty. *)
Lemma rows_of_party (p : string) rows :
  (exists nm c, [p; nm; c] ∈ rows) <-> omap (row_person p) rows <> [].
Proof.
  split.
  - intros (nm & c & Hin) Hnil.
    assert (Person nm p ∈ omap (row_person p) rows) as Hx.
    { apply list_elem_of_omap. exists [p; nm; c]. split; [auto|].
      simpl. destruct (decide (p = p)); [reflexivity|congruence]. }
    rewrite Hnil in Hx. apply not_elem_of_nil in Hx. auto.
  - intros Hne. destruct (omap (row_person p) rows) as [|x xs] eqn:Ho; [congruence|].
    assert (x ∈ omap (row_person p) rows) as Hx by (rewrite Ho; apply list_elem_of_here).
    apply list_elem_of_omap in Hx as [row [Hrow Hr]].
    destruct row as [|q [|nm [|c [|y row]]]]; simpl in Hr; try discriminate.
    destruct (decide (q = p)) as [->|]; [|discriminate]. eauto.
Qed.
End PartyListsFacts.

(* ================================================================== *)
(** * The specification's claims *)

Import HighestAverages.




(** C2 (amended): for any positive quota [q], a largest-remainder
    evaluation overawards exactly when the floors [floor(votes / q)] sum to
    more than [n], and underawards exactly when the leftover seats after
    the floors outnumber the options.  An [Ok] result has exactly [n] seats,
    each option getting its floor or one seat more; no option exceeds
    [ceil(votes / q)] when the leftover seats are at most the number of
    options whose quotient is not a whole number, or when no tie-break
    policy is configured and the leftover seats are fewer than the options.
    A reported tie only occurs without a tie-break policy: its open seats
    are fewer than the tied options and add up to [n] with the seats
    already awarded.  Under the Hare quota (positive vote total, [n > 0])
    there is no overaward or underaward, every [Ok] result sums to [n] and
    respects the ceiling, and with the first-listed tie-break the result is
    always [Ok]. *)
Theorem C2_largest_remainder_bounds :
  (forall pol qf votes n,
     (0 < qf (sum_Z votes) n)%Q ->
     let q := qf (sum_Z votes) n in
     let floors := map (fun v => Qfloor (inject_Z v / q)) votes in
     let left := (Z.of_nat n - sum_Z floors)%Z in
     let nfrac := length (List.filter
           (fun v => Qfloor (inject_Z v / q) <? Qceiling (inject_Z v / q))%Z votes) in
     (LargestRemainder.evaluate pol qf votes n = LargestRemainder.Overaward <->
        (left < 0)%Z) /\
     (LargestRemainder.evaluate pol qf votes n = LargestRemainder.Underaward <->
        (Z.of_nat (length votes) < left)%Z) /\
     (forall s, LargestRemainder.evaluate pol qf votes n = LargestRemainder.Ok s ->
        length s = length votes /\ sum_Z s = Z.of_nat n /\
        (forall k, k < length votes ->
           (nth k floors 0 <= nth k s 0 <= nth k floors 0 + 1)%Z) /\
        ((left <= Z.of_nat nfrac)%Z \/
         (pol = ReportTie /\ (left < Z.of_nat (length votes))%Z) ->
         forall k, k < length votes ->
           (nth k s 0 <= Qceiling (inject_Z (nth k votes 0) / q))%Z)) /\
     (forall tied k aw,
        LargestRemainder.evaluate pol qf votes n = LargestRemainder.TieAt tied k aw ->
        pol = ReportTie /\ 0 < k /\ k < length tied /\
        (forall i, In i tied -> i < length votes) /\
        length aw = length votes /\ (sum_Z aw + Z.of_nat k)%Z = Z.of_nat n /\
        (forall j, j < length votes ->
           (nth j floors 0 <= nth j aw 0 <= nth j floors 0 + 1)%Z))) /\
  (forall pol votes n,
     (0 < sum_Z votes)%Z -> 0 < n ->
     LargestRemainder.evaluate pol Quota.hare votes n <> LargestRemainder.Overaward /\
     LargestRemainder.evaluate pol Quota.hare votes n <> LargestRemainder.Underaward /\
     (forall s, LargestRemainder.evaluate pol Quota.hare votes n = LargestRemainder.Ok s ->
        sum_Z s = Z.of_nat n /\
        forall k, k < length votes ->
          (nth k s 0 <= Qceiling (inject_Z (nth k votes 0)
                                   / Quota.hare (sum_Z votes) n))%Z) /\
     (pol = FirstListed ->
        exists s, LargestRemainder.evaluate pol Quota.hare votes n = LargestRemainder.Ok s)).
Proof.
  split.
  - intros pol qf votes n Hq.
    apply LREval.lr_cases. unfold Qlt in Hq. simpl in Hq. lia.
  - intros pol votes n HV Hn.
    destruct (LREval.hare_cases pol votes n HV Hn) as (Hq & Ho & Hu & Hleft).
    destruct (LREval.lr_cases pol Quota.hare votes n Hq) as (_ & _ & Hok & Htie).
    split; [exact Ho|split; [exact Hu|split]].
    + intros s Hs. destruct (Hok s Hs) as (_ & Hsum & _ & Hceil).
      split; [exact Hsum|]. apply Hceil. left. exact Hleft.
    + intros ->.
      destruct (LargestRemainder.evaluate FirstListed Quota.hare votes n)
        as [s|tied k aw| |] eqn:Hev.
      * eauto.
      * destruct (Htie tied k aw eq_refl) as [[=] _].
      * congruence.
      * congruence.
Qed.

(** C2: the Hare half of the amended statement on votes 100, 80, 20 for
    4 seats with the first-listed tie-break. *)
Lemma C2_largest_remainder_bounds_witness :
  exists s, LargestRemainder.evaluate FirstListed Quota.hare [100; 80; 20]%Z 4
              = LargestRemainder.Ok s /\ sum_Z s = 4%Z.
Proof.
  destruct (proj2 C2_largest_remainder_bounds FirstListed [100; 80; 20]%Z 4
              ltac:(vm_compute; reflexivity) ltac:(lia)) as (_ & _ & Hok & Hex).
  destruct (Hex eq_refl) as [s Hs].
  exists s. split; [exact Hs|]. apply (Hok s Hs).
Defined.

(** C2 (counterexample): with the Droop quota, votes 1 and 1 for 4 seats
    give the quota [floor(2 / 5) + 1 = 1], floors 1 and 1 and two leftover
    seats for two options; without any tie both options get a second seat,
    2 seats each while [ceil(1 / 1) = 1]. *)
Lemma C2_droop_exceeds_ceiling :
  LargestRemainder.evaluate ReportTie Quota.droop [1; 1]%Z 4
    = LargestRemainder.Ok [2; 2]%Z /\
  (Qceiling (inject_Z 1 / Quota.droop (sum_Z [1; 1]%Z) 4) < 2)%Z.
Proof. split; vm_compute; reflexivity. Qed.

(** C3: a converged biproportional result meets both marginals exactly
    (row sums are the district totals, column sums the party totals); the
    evaluation reports non-convergence exactly when none of the
    [max_iterations] alternating divisor adjustments yields a matrix meeting
    both marginals, and it always terminates (it is a total function). *)
Theorem C3_biproportional_marginals votes rtot ctot :
  (forall m, Biproportional.evaluate votes rtot ctot = Biproportional.Converged m ->
     Biproportional.row_sums m = map Z.of_nat rtot /\
     Biproportional.col_sums (length ctot) m = map Z.of_nat ctot) /\
  (Biproportional.evaluate votes rtot ctot = Biproportional.NotConverged <->
   forall k, 1 <= k <= Biproportional.max_iterations ->
     Biproportional.marginals_ok rtot ctot
       (Biproportional.rounded votes
          (Nat.iter k (Biproportional.adjust votes rtot ctot)
             (Biproportional.mkDivisors (repeat 1%Q (length rtot))
                                        (repeat 1%Q (length ctot))))) = false).
Proof.
  split.
  - intros m H. apply (BPFacts.bp_loop_converged votes rtot ctot _ _ m H).
  - apply BPFacts.bp_loop_not_converged.
Qed.

(** C3: two districts of 5 seats, two parties of 4 and 6 seats. *)
Lemma C3_biproportional_marginals_witness :
  Biproportional.evaluate bp_votes [5; 5] [4; 6]
    = Biproportional.Converged [[3; 2]; [1; 4]]%Z /\
  Biproportional.row_sums [[3; 2]; [1; 4]]%Z = [5; 5]%Z /\
  Biproportional.col_sums 2 [[3; 2]; [1; 4]]%Z = [4; 6]%Z.
Proof.
  assert (H : Biproportional.evaluate bp_votes [5; 5] [4; 6]
                = Biproportional.Converged [[3; 2]; [1; 4]]%Z)
    by (vm_compute; reflexivity).
  split; [exact H|].
  exact (proj1 (C3_biproportional_marginals bp_votes [5; 5] [4; 6]) _ H).
Defined.

(** C4: when the candidate [c] is a Condorcet winner of the pairwise matrix
    of a vote profile with non-negative counts (over a duplicate-free list of
    candidates), Copeland, Minimax, Schulze, Ranked Pairs and Kemeny-Young
    all select [c] as the single winner. *)
Theorem C4_condorcet_winner_selected {C : Type} `{EqDecision C}
    (votes : list (list C * Z)) (cands : list C) (c : C) :
  Forall (fun v => (0 <= v.2)%Z) votes ->
  NoDup cands ->
  Condorcet.condorcet_winner (Condorcet.pairwise votes) cands c ->
  let m := Condorcet.pairwise votes in
  Condorcet.copeland m cands = Condorcet.Winner c /\
  Condorcet.minimax m cands = Condorcet.Winner c /\
  Condorcet.schulze m cands = Condorcet.Winner c /\
  Condorcet.ranked_pairs m cands = Condorcet.Winner c /\
  Condorcet.kemeny_young m cands = Condorcet.Winner c.
Proof.
  intros Hw Hnd Hcw m.
  split; [apply CondorcetFacts.copeland_winner; auto|].
  split; [apply CondorcetFacts.minimax_winner; auto|].
  split; [apply CondorcetFacts.schulze_winner; auto;
          intros a b; apply CondorcetFacts.pairwise_nonneg; auto|].
  split; [apply CondorcetFacts.ranked_pairs_winner; auto|].
  apply CondorcetFacts.kemeny_young_winner; auto.
Qed.

(** C4: candidate 0 beats 1 (8 to 3) and 2 (6 to 5) in [cond_votes]. *)
Lemma C4_condorcet_winner_selected_witness :
  Condorcet.condorcet_winner (Condorcet.pairwise cond_votes) [0; 1; 2] 0 /\
  Condorcet.schulze (Condorcet.pairwise cond_votes) [0; 1; 2] = Condorcet.Winner 0.
Proof.
  assert (Hcw : Condorcet.condorcet_winner (Condorcet.pairwise cond_votes) [0; 1; 2] 0).
  { split; [apply list_elem_of_In; left; reflexivity|].
    intros x Hx Hne. apply list_elem_of_In in Hx.
    destruct Hx as [<-|[<-|[<-|[]]]]; [congruence|vm_compute; reflexivity..]. }
  split; [exact Hcw|].
  exact (proj1 (proj2 (proj2 (C4_condorcet_winner_selected cond_votes [0; 1; 2] 0
           ltac:(repeat constructor; simpl; lia)
           ltac:(apply NoDup_ListNoDup; repeat constructor; simpl; intuition lia)
           Hcw)))).
Defined.

(** C5: the transferable vote with the Droop quota and the Hare transfer,
    for one seat (given explicitly or by default), elects exactly Mary
    Robinson on the 1990 Irish presidential vote. *)
Theorem C5_irish_1990 :
  STV.evaluate Quota.droop STV.Hare irish_1990_votes (Some 1)
    = STV.Selected ["Mary Robinson"] /\
  STV.evaluate Quota.droop STV.Hare irish_1990_votes None
    = STV.Selected ["Mary Robinson"].
Proof. split; vm_compute; reflexivity. Qed.

(** C6: for a divisor sequence of positive, non-decreasing divisors (indexed
    from 1) and non-negative votes, raising one option's votes while the
    seat count and the other options' votes stay fixed never lowers that
    option's seats, whenever both evaluations are decided. *)
Theorem C6_ha_vote_monotone (divisor : nat -> Q) pol (votes votes' : list Z) a n
    (s s' : list nat) :
  (forall k, 0 < divisor (S k))%Q ->
  (forall k, divisor (S k) <= divisor (S (S k)))%Q ->
  Forall (fun v => (0 <= v)%Z) votes ->
  length votes' = length votes ->
  (forall j, j <> a -> nth j votes' 0%Z = nth j votes 0%Z) ->
  (nth a votes 0%Z <= nth a votes' 0%Z)%Z ->
  HighestAverages.evaluate pol divisor votes n = Decided s ->
  HighestAverages.evaluate pol divisor votes' n = Decided s' ->
  nth a s 0 <= nth a s' 0.
Proof.
  intros Hpos Hmono Hnn Hlen Hother Ha Hs Hs'.
  exact (HAMonotone.ha_vote_monotone divisor Hpos Hmono pol votes votes' a n s s'
           Hnn Hlen Hother Ha Hs Hs').
Qed.

(** C6: d'Hondt for 5 seats; raising the second option from 80 to 120
    votes takes it from 2 to 3 seats. *)
Lemma C6_ha_vote_monotone_witness :
  HighestAverages.evaluate ReportTie Divisor.d_hondt [100; 80; 30]%Z 5 = Decided [3; 2; 0] /\
  HighestAverages.evaluate ReportTie Divisor.d_hondt [100; 120; 30]%Z 5 = Decided [2; 3; 0] /\
  2 <= 3.
Proof.
  assert (H1 : HighestAverages.evaluate ReportTie Divisor.d_hondt [100; 80; 30]%Z 5
                 = Decided [3; 2; 0]) by (vm_compute; reflexivity).
  assert (H2 : HighestAverages.evaluate ReportTie Divisor.d_hondt [100; 120; 30]%Z 5
                 = Decided [2; 3; 0]) by (vm_compute; reflexivity).
  split; [exact H1|]. split; [exact H2|].
  exact (C6_ha_vote_monotone Divisor.d_hondt ReportTie [100; 80; 30]%Z [100; 120; 30]%Z
           1 5 [3; 2; 0] [2; 3; 0]
           ltac:(intros k; unfold Divisor.d_hondt, Qlt; simpl; lia)
           ltac:(intros k; unfold Divisor.d_hondt, Qle; simpl; lia)
           ltac:(repeat constructor; lia)
           eq_refl
           ltac:(intros [|[|[|j]]] Hj; simpl; congruence)
           ltac:(simpl; lia)
           H1 H2).
Defined.

(* ================================================================== *)
(** * Properties of the example notebooks' loading code *)

Import RegionalVotes PartyLists.

(** X1: a successful load of the regional vote table has one region
    dictionary per header cell after the first, whatever the data rows
    hold. *)
Theorem regional_votes_keys (int : string -> option Z) header data votes :
  load_votes int (header :: data) = inr votes ->
  forall r, is_Some (votes !! r) <-> r ∈ tail header.
Proof.
  unfold load_votes. intros H r.
  rewrite (RegionalVotesFacts.store_rows_keys _ _ _ _ _ H r),
    RegionalVotesFacts.init_votes_lookup.
  destruct (decide (r ∈ tail header)); [split; eauto|split; [intros [? [=]]|tauto]].
Qed.

Lemma regional_votes_keys_witness :
  load_votes int_of_digits csv_regions = inr csv_regions_votes /\
  (is_Some (csv_regions_votes !! "Brno"%string) <-> "Brno"%string ∈ ["Praha"; "Brno"]%string).
Proof.
  assert (H : load_votes int_of_digits csv_regions = inr csv_regions_votes)
    by (vm_compute; reflexivity).
  split; [exact H|]. exact (regional_votes_keys int_of_digits _ _ _ H _).
Defined.

(** X2: the regional loader fails only with [IndexError] or [ValueError]:
    every [votes[regname]] it subscripts exists, so it never raises
    [KeyError]. *)
Theorem regional_votes_errors (int : string -> option Z) rows e :
  load_votes int rows = inl e -> e = IndexError \/ e = ValueError.
Proof.
  destruct rows as [|header data]; simpl.
  - intros [= <-]. left. reflexivity.
  - intros H. destruct e; auto. exfalso.
    revert H. apply RegionalVotesFacts.store_rows_no_key_error.
    intros r Hr. rewrite RegionalVotesFacts.init_votes_lookup.
    destruct (decide (r ∈ tail header)); [eauto|contradiction].
Qed.

Lemma regional_votes_errors_witness :
  load_votes int_of_digits [["strana"; "Praha"]; ["ANO"; "many"]]%string = inl ValueError /\
  (ValueError = IndexError \/ ValueError = ValueError).
Proof.
  assert (H : load_votes int_of_digits [["strana"; "Praha"]; ["ANO"; "many"]]%string
              = inl ValueError) by (vm_compute; reflexivity).
  split; [exact H|]. exact (regional_votes_errors int_of_digits _ _ H).
Defined.

(** X3: the regional loader succeeds exactly when there is a header row,
    every data row is non-empty, and every cell under a region column
    converts with [int]; cells beyond the header's columns are never
    converted. *)
Theorem regional_votes_success (int : string -> option Z) rows :
  (exists votes, load_votes int rows = inr votes) <->
  exists header data, rows = header :: data /\
    forall row, row ∈ data -> exists party cells, row = party :: cells /\
      forall c, c ∈ take (length (tail header)) cells -> is_Some (int c).
Proof.
  destruct rows as [|header data]; simpl.
  - split; [intros [? [=]]|intros (? & ? & [=] & _)].
  - rewrite RegionalVotesFacts.store_rows_ok.
    + split; [intros H; exists header, data; auto|].
      intros (h & d & [= <- <-] & H). exact H.
    + intros r Hr. rewrite RegionalVotesFacts.init_votes_lookup.
      destruct (decide (r ∈ tail header)); [eauto|contradiction].
Qed.

(** X4: the count of party [party] in region [r] comes from the last data
    row of that party, in the last column headed [r] that the row reaches:
    a later row of the same party overrides an earlier one, and a later
    column of the same region overrides an earlier one. *)
Theorem regional_votes_cell (int : string -> option Z) header pre party cells post
    r j c n votes :
  load_votes int (header :: pre ++ (party :: cells) :: post) = inr votes ->
  (forall row, row ∈ post -> head row <> Some party) ->
  tail header !! j = Some r -> cells !! j = Some c -> int c = Some n ->
  (forall k, j < k -> k < length cells -> tail header !! k <> Some r) ->
  votes !! r ≫= (fun d => d !! party) = Some n.
Proof.
  unfold load_votes. set (names := tail header).
  intros H Hpost Hr Hc Hn Hlast.
  rewrite RegionalVotesFacts.store_rows_app in H.
  destruct (store_rows int names pre (init_votes names)) as [e|v1]; [discriminate|].
  simpl in H.
  destruct (store_cells int party (zip names cells) v1) as [e|v2] eqn:Hs; [discriminate|].
  assert (Hz : zip names cells !! j = Some (r, c))
    by (rewrite lookup_zip_with, Hr, Hc; reflexivity).
  rewrite <- (take_drop_middle _ _ _ Hz), RegionalVotesFacts.store_cells_app in Hs.
  destruct (store_cells int party (take j (zip names cells)) v1) as [e|v3]; [discriminate|].
  rewrite (RegionalVotesFacts.store_rows_preserve _ _ _ _ _ _ _ H).
  - exact (RegionalVotesFacts.store_cells_write _ _ _ _ _ _ _ _ Hs Hn
             (RegionalVotesFacts.zip_fst_drop_not_in _ _ _ _ Hlast)).
  - intros cs Hcs. exfalso. apply (Hpost _ Hcs). reflexivity.
Qed.

Lemma regional_votes_cell_witness :
  csv_regions_votes !! "Praha"%string ≫= (fun d => d !! "ANO"%string) = Some 7%Z.
Proof.
  apply (regional_votes_cell int_of_digits ["strana"; "Praha"; "Brno"]%string
           [["ANO"; "10"; "20"]; ["ODS"; "5"]]%string "ANO"%string ["7"; "8"; "x"]%string []
           "Praha"%string 0 "7"%string 7%Z).
  - vm_compute. reflexivity.
  - intros row Hrow. inversion Hrow.
  - reflexivity.
  - reflexivity.
  - reflexivity.
  - intros [|[|[|k]]] H1 H2; simpl in *; try lia; discriminate.
Defined.

(** X5: a party has no entry in region [r] when none of its rows reaches a
    column headed [r]: [zip] stops at the shorter of the header and the row,
    so a short row leaves the regions beyond it without that party, and no
    error is raised. *)
Theorem regional_votes_absent (int : string -> option Z) header data votes r party :
  load_votes int (header :: data) = inr votes ->
  (forall cells, (party :: cells) ∈ data ->
     forall j, tail header !! j = Some r -> length cells <= j) ->
  votes !! r ≫= (fun d => d !! party) = None.
Proof.
  unfold load_votes. intros H Hshort.
  rewrite (RegionalVotesFacts.store_rows_preserve _ _ _ _ _ _ _ H).
  - rewrite RegionalVotesFacts.init_votes_lookup.
    destruct (decide (r ∈ tail header)); reflexivity.
  - intros cells Hin. apply RegionalVotesFacts.zip_fst_not_in. auto.
Qed.

Lemma regional_votes_absent_witness :
  csv_regions_votes !! "Brno"%string ≫= (fun d => d !! "ODS"%string) = None.
Proof.
  apply (regional_votes_absent int_of_digits ["strana"; "Praha"; "Brno"]%string
           [["ANO"; "10"; "20"]; ["ODS"; "5"]; ["ANO"; "7"; "8"; "x"]]%string).
  - vm_compute. reflexivity.
  - intros cells Hin j Hj.
    repeat (apply elem_of_cons in Hin as [Hin|Hin]; [try discriminate|]);
      [|inversion Hin].
    injection Hin as ->. destruct j as [|[|j]]; simpl in *; try discriminate; lia.
Defined.

(** X6: when every cell under a region column converts with [int], the
    regional loader raises [IndexError] exactly when a data row is empty,
    as [csv.reader] returns for a blank line, through [row[0]]. *)
Theorem regional_votes_blank_row (int : string -> option Z) header data :
  (forall party cells, (party :: cells) ∈ data ->
     forall c, c ∈ take (length (tail header)) cells -> is_Some (int c)) ->
  load_votes int (header :: data) = inl IndexError <-> [] ∈ data.
Proof.
  intros Hp. unfold load_votes.
  assert (Hk : forall r, r ∈ tail header -> is_Some (init_votes (tail header) !! r)).
  { intros r Hr. rewrite RegionalVotesFacts.init_votes_lookup.
    destruct (decide (r ∈ tail header)); [eauto|contradiction]. }
  split.
  - intros H. exact (proj2 (RegionalVotesFacts.store_rows_parsed _ _ _ _ _ Hk Hp H)).
  - intros Hin.
    destruct (store_rows int (tail header) data (init_votes (tail header))) as [e|v] eqn:H.
    + f_equal. exact (proj1 (RegionalVotesFacts.store_rows_parsed _ _ _ _ _ Hk Hp H)).
    + destruct (proj1 (RegionalVotesFacts.store_rows_ok _ _ _ _ Hk) (ex_intro _ v H)
                 [] Hin) as (? & ? & [=] & _).
Qed.

Lemma regional_votes_blank_row_witness :
  load_votes int_of_digits [["strana"; "Praha"]; ["ANO"; "10"]; []]%string = inl IndexError.
Proof.
  apply (regional_votes_blank_row int_of_digits ["strana"; "Praha"]%string
           [["ANO"; "10"]; []]%string).
  - intros party cells Hin c Hc.
    apply elem_of_cons in Hin as [Hin|Hin].
    + injection Hin as -> ->. simpl in Hc. apply elem_of_cons in Hc as [->|Hc];
        [vm_compute; eauto|inversion Hc].
    + apply elem_of_cons in Hin as [Hin|Hin]; [discriminate|inversion Hin].
  - right. left.
Defined.

(** X7: the candidate list loader succeeds exactly when every CSV row has
    exactly three cells and its third cell converts with [int]; otherwise
    it fails, and the exception it raises is always [ValueError] (from the
    unpacking or the conversion), never [IndexError] or [KeyError]. *)
Theorem party_lists_success (int : string -> option Z) rows :
  ((exists s, load_party_lists int rows = inr s) <->
   forall row, row ∈ rows -> exists p nm c, row = [p; nm; c] /\ is_Some (int c)) /\
  (forall e, load_party_lists int rows = inl e -> e = ValueError).
Proof.
  split.
  - apply PartyListsFacts.load_rows_ok.
  - intros e. apply PartyListsFacts.load_rows_error.
Qed.

(** X8: after a successful load, party [p] has a list exactly when some
    row names [p], and that list holds one person per row of [p], named as
    in the row, standing for [p], in file order. *)
Theorem party_lists_order (int : string -> option Z) rows objs lists p :
  load_party_lists int rows = inr (objs, lists) ->
  lists !! p = match omap (row_person p) rows with
               | [] => None
               | l => Some l
               end.
Proof.
  intros H.
  destruct (PartyListsFacts.load_rows_lists int rows ∅ ∅ objs lists p)
    as ([_ Hkeys] & Hl & Hobjs).
  - split; [intros q o Hq; rewrite lookup_empty in Hq; discriminate|].
    intros q. rewrite !lookup_empty. split; intros [? [=]].
  - exact H.
  - rewrite lookup_empty in Hl. rewrite lookup_empty in Hobjs. simpl in Hl.
    destruct (lists !! p) as [l|] eqn:Hp; simpl in Hl.
    + assert (Hne : omap (row_person p) rows <> []).
      { apply PartyListsFacts.rows_of_party.
        assert (Hs : is_Some (objs !! p)) by (apply Hkeys; rewrite Hp; eauto).
        apply Hobjs in Hs as [[? [=]]|Hs]. exact Hs. }
      rewrite <- Hl in Hne |- *. destruct l; [congruence|reflexivity].
    + rewrite <- Hl. reflexivity.
Qed.

Lemma party_lists_order_witness :
  csv_candidates_loaded.2 !! "VPM"%string
  = Some [Person "Novak" "VPM"; Person "Svoboda" "VPM"]%string.
Proof.
  rewrite (party_lists_order int_of_digits csv_candidates csv_candidates_loaded.1
             csv_candidates_loaded.2 "VPM"%string).
  - reflexivity.
  - vm_compute. reflexivity.
Defined.

(** X9: after a successful load, [party_objs] and [party_lists] both have
    exactly the parties named in the rows as keys. *)
Theorem party_lists_keys (int : string -> option Z) rows objs lists p :
  load_party_lists int rows = inr (objs, lists) ->
  (is_Some (lists !! p) <-> exists nm c, [p; nm; c] ∈ rows) /\
  (is_Some (objs !! p) <-> exists nm c, [p; nm; c] ∈ rows).
Proof.
  intros H.
  destruct (PartyListsFacts.load_rows_lists int rows ∅ ∅ objs lists p)
    as ([_ Hkeys] & _ & Hobjs).
  - split; [intros q o Hq; rewrite lookup_empty in Hq; discriminate|].
    intros q. rewrite !lookup_empty. split; intros [? [=]].
  - exact H.
  - rewrite lookup_empty in Hobjs.
    assert (Ho : is_Some (objs !! p) <-> exists nm c, [p; nm; c] ∈ rows).
    { rewrite Hobjs. split; [intros [[? [=]]|?]; auto|auto]. }
    split; [rewrite Hkeys; exact Ho|exact Ho].
Qed.

Lemma party_lists_keys_witness :
  (is_Some (csv_candidates_loaded.2 !! "ODS"%string) <->
     exists nm c, ["ODS"; nm; c]%string ∈ csv_candidates) /\
  (is_Some (csv_candidates_loaded.1 !! "ODS"%string) <->
     exists nm c, ["ODS"; nm; c]%string ∈ csv_candidates).
Proof.
  apply (party_lists_keys int_of_digits csv_candidates).
  vm_compute. reflexivity.
Defined.
